(** * Dev-Events platform: event and booking models, connection cache

    A shallow embedding of
    - [database/event.model.ts]  (slugify, normalizeTimeTo24,
      normalizeDateToISO and the Event pre-save hook),
    - the booking model          (isValidEmail and the Booking pre-save hook),
    - [lib/mongodb.ts]           (connectToDatabase and its global cache),
    together with the properties the specification states about them.

    JavaScript strings are modelled as lists of code units; the model covers
    the code units 0..255 (Rocq's [ascii]), i.e. Latin-1 text.  On that range
    [toLowerCase], [trim] and the regular-expression class [\s] are written
    out as ECMAScript defines them. *)

From Stdlib Require Import ZArith Lia Ascii String List Bool.
From stdpp Require Import base option list strings gmap.

Local Open Scope Z_scope.

(* ------------------------------------------------------------------ *)
(** ** Strings *)

Abbreviation jsstring := (list ascii).

(** Literals: [js "abc"] is the code-unit list of the literal. *)
Definition js (s : string) : jsstring := list_ascii_of_string s.

Definition code (c : ascii) : Z := Z.of_N (N_of_ascii c).

Definition between (lo hi : Z) (c : ascii) : bool :=
  (lo <=? code c) && (code c <=? hi).

(** [\d] *)
Definition isDigit (c : ascii) : bool := between 48 57 c.

(** [a-z] *)
Definition isLowerLetter (c : ascii) : bool := between 97 122 c.

(** ECMAScript WhiteSpace and LineTerminator below U+0100: TAB, LF, VT, FF,
    CR, SPACE and NO-BREAK SPACE.  This is what [trim] strips and what [\s]
    matches. *)
Definition isWhiteSpace (c : ascii) : bool :=
  between 9 13 c || (code c =? 32) || (code c =? 160).

(** [String.prototype.toLowerCase], one code unit: A-Z, and the Latin-1
    capitals U+00C0..U+00DE except the multiplication sign U+00D7. *)
Definition toLowerChar (c : ascii) : ascii :=
  if between 65 90 c || (between 192 222 c && negb (code c =? 215))
  then ascii_of_N (Z.to_N (code c + 32))
  else c.

Definition toLowerCase (s : jsstring) : jsstring := map toLowerChar s.

Fixpoint trimStart (s : jsstring) : jsstring :=
  match s with
  | c :: s' => if isWhiteSpace c then trimStart s' else s
  | [] => []
  end.

Definition trimEnd (s : jsstring) : jsstring := rev (trimStart (rev s)).

(** [String.prototype.trim] *)
Definition trim (s : jsstring) : jsstring := trimEnd (trimStart s).

(* ------------------------------------------------------------------ *)
(** ** Regular expressions

    The fragment of ECMAScript regular expressions the three source files
    use: literals, character classes under a greedy quantifier, sequence,
    alternation, capturing groups and the assertions [^] and [$] (no [m]
    flag: start and end of the whole input).  Matching is by backtracking in
    the priority order of the language: [run] lists every way the pattern can
    match at the current position, best first. *)

Inductive regex : Type :=
| Eps
| Bol                                   (* ^ *)
| Eol                                   (* $ *)
| Lit (c : ascii)
| Class (p : ascii -> bool) (lo : nat) (hi : option nat)
                                        (* [p]{lo,hi}, greedy; hi = None: no bound *)
| Seq (r1 r2 : regex)
| Alt (r1 r2 : regex)
| Group (r : regex).                    (* ( ... ) *)

Definition One (p : ascii -> bool) : regex := Class p 1 (Some 1%nat).
Definition Plus (p : ascii -> bool) : regex := Class p 1 None.
Definition Star (p : ascii -> bool) : regex := Class p 0 None.
Definition Opt (r : regex) : regex := Alt r Eps.

(** Number of capturing groups. *)
Fixpoint ngroups (r : regex) : nat :=
  match r with
  | Seq r1 r2 | Alt r1 r2 => (ngroups r1 + ngroups r2)%nat
  | Group r => S (ngroups r)
  | _ => 0%nat
  end.

(** A capture is [None] when its group took no part in the match
    ([undefined] in the match array). *)
Definition captures := list (option jsstring).

(** One way to match: what was consumed, the captures, what is left. *)
Definition outcome : Type := jsstring * captures * jsstring.

(** Length of the longest prefix of [s] inside the class, capped by [hi]. *)
Fixpoint span (p : ascii -> bool) (hi : option nat) (s : jsstring) : nat :=
  match hi, s with
  | Some O, _ => O
  | _, [] => O
  | _, c :: s' => if p c then S (span p (pred <$> hi) s') else O
  end.

(** The candidate lengths [n, n-1, ..., lo] of a greedy quantifier. *)
Fixpoint downto (lo n : nat) : list nat :=
  if (n <? lo)%nat then []
  else n :: match n with O => [] | S n' => downto lo n' end.

Definition isEmpty (s : jsstring) : bool :=
  match s with [] => true | _ => false end.

Fixpoint run (r : regex) (bol : bool) (s : jsstring) : list outcome :=
  match r with
  | Eps => [([], [], s)]
  | Bol => if bol then [([], [], s)] else []
  | Eol => if isEmpty s then [([], [], s)] else []
  | Lit c =>
      match s with
      | x :: s' => if bool_decide (x = c) then [([x], [], s')] else []
      | [] => []
      end
  | Class p lo hi =>
      map (fun n => (take n s, [], drop n s)) (downto lo (span p hi s))
  | Seq r1 r2 =>
      flat_map (fun '(c1, k1, s1) =>
        map (fun '(c2, k2, s2) => (c1 ++ c2, k1 ++ k2, s2))
            (run r2 (bol && isEmpty c1) s1))
        (run r1 bol s)
  | Alt r1 r2 =>
      map (fun '(c, k, s') => (c, k ++ replicate (ngroups r2) None, s'))
          (run r1 bol s)
      ++ map (fun '(c, k, s') => (c, replicate (ngroups r1) None ++ k, s'))
          (run r2 bol s)
  | Group r =>
      map (fun '(c, k, s') => (c, Some c :: k, s')) (run r bol s)
  end.

(** The match at one position: the first outcome. *)
Definition matchAt (r : regex) (bol : bool) (s : jsstring) : option outcome :=
  head (run r bol s).

(** [RegExp.prototype.exec] without the [g] flag: the leftmost position at
    which the pattern matches.  The result is the captures, with the whole
    match at index 0 as in the JavaScript match array. *)
Fixpoint searchFrom (r : regex) (bol : bool) (s : jsstring) : option captures :=
  match matchAt r bol s with
  | Some (c, k, _) => Some (Some c :: k)
  | None =>
      match s with
      | [] => None
      | _ :: s' => searchFrom r false s'
      end
  end.

(** [s.match(r)] *)
Definition jsmatch (s : jsstring) (r : regex) : option captures :=
  searchFrom r true s.

(** [r.test(s)] *)
Definition test (r : regex) (s : jsstring) : bool :=
  bool_decide (is_Some (jsmatch s r)).

(** [s.replace(r, repl)] with the [g] flag: every match, left to right, is
    replaced; after an empty match one code unit is copied and the scan moves
    on.  The scan visits at most [length s + 1] positions. *)
Fixpoint replaceFrom (fuel : nat) (r : regex) (repl : jsstring)
    (bol : bool) (s : jsstring) : jsstring :=
  match fuel with
  | O => s
  | S fuel' =>
      match matchAt r bol s with
      | Some ([], _, _) =>
          repl ++ match s with
                  | [] => []
                  | x :: s' => x :: replaceFrom fuel' r repl false s'
                  end
      | Some (_ :: _, _, rest) => repl ++ replaceFrom fuel' r repl false rest
      | None =>
          match s with
          | [] => []
          | x :: s' => x :: replaceFrom fuel' r repl false s'
          end
      end
  end.

Definition replaceAll (s : jsstring) (r : regex) (repl : jsstring) : jsstring :=
  replaceFrom (S (length s)) r repl true s.

(* ------------------------------------------------------------------ *)
(** ** Numbers and their conversions

    Only integers and NaN occur in the code below: a number is an integer or
    [None] for NaN.  Every comparison with NaN is false, [!==] with NaN is
    true. *)

Definition number := option Z.

Definition num_ge (a : number) (b : Z) : bool :=
  match a with Some x => b <=? x | None => false end.
Definition num_lt (a : number) (b : Z) : bool :=
  match a with Some x => x <? b | None => false end.
Definition num_seq (a : number) (b : Z) : bool :=          (* === *)
  match a with Some x => x =? b | None => false end.
Definition num_add (a : number) (b : Z) : number := Z.add b <$> a.

Definition digitValue (c : ascii) : Z := code c - 48.

Definition takeWhile (p : ascii -> bool) (s : jsstring) : jsstring :=
  take (span p None s) s.

(** The value of a run of decimal digits. *)
Definition digitsValue (ds : jsstring) : Z :=
  fold_left (fun acc c => 10 * acc + digitValue c) ds 0.

(** [parseInt(s, 10)]: leading white space is skipped, a sign is read, and
    the longest run of decimal digits is the value; NaN when there is no
    digit.  An argument that is [undefined] reads as NaN. *)
Definition parseInt (arg : option jsstring) : number :=
  match arg with
  | None => None
  | Some s =>
      let s1 := trimStart s in
      let '(sign, s2) :=
        match s1 with
        | c :: s' =>
            if bool_decide (c = "-"%char) then (-1, s')
            else if bool_decide (c = "+"%char) then (1, s')
            else (1, s1)
        | [] => (1, s1)
        end in
      match takeWhile isDigit s2 with
      | [] => None
      | ds => Some (sign * digitsValue ds)
      end
  end.

Definition digitChar (d : Z) : ascii := ascii_of_N (Z.to_N (48 + d)).

Fixpoint digitsOf (fuel : nat) (n : Z) : jsstring :=
  match fuel with
  | O => [digitChar (n mod 10)]
  | S fuel' =>
      if n <? 10 then [digitChar n]
      else digitsOf fuel' (n / 10) ++ [digitChar (n mod 10)]
  end.

(** Decimal digits of a non-negative integer. *)
Definition decimal (n : Z) : jsstring := digitsOf (Z.to_nat (Z.log2 n)) n.

(** [String(n)] *)
Definition numToString (n : number) : jsstring :=
  match n with
  | None => js "NaN"
  | Some x => if x <? 0 then "-"%char :: decimal (- x) else decimal x
  end.

(** [s.padStart(len, fill)] *)
Definition padStart (s : jsstring) (len : nat) (fill : jsstring) : jsstring :=
  let k := (len - length s)%nat in
  take k (concat (replicate k fill)) ++ s.

(* ------------------------------------------------------------------ *)
(** ** Errors

    The code throws plain [Error] objects that differ only in their message;
    each constructor stands for one [throw] site, [message] gives its text. *)

Inductive error : Type :=
| InvalidTimeFormat (input : jsstring)      (* event.model.ts, normalizeTimeTo24 *)
| InvalidDateFormat (input : jsstring)      (* event.model.ts, normalizeDateToISO *)
| FieldRequired (field : string)            (* Event pre-save, text fields *)
| ArrayRequired (field : string)            (* Event pre-save, agenda and tags *)
| InvalidEmailFormat                        (* Booking pre-save *)
| EventDoesNotExist                         (* Booking pre-save *)
| MissingMongoUri                           (* connectToDatabase *)
| ConnectFailure (reason : string)          (* whatever mongoose.connect rejects with *)
| TypeError.                                (* a string method applied to a non-string *)

Definition dq : jsstring := ["034"%char].

Definition message (e : error) : jsstring :=
  match e with
  | InvalidTimeFormat input =>
      js "Invalid time format: " ++ dq ++ input ++ dq ++ js ". Expected "
      ++ dq ++ js "HH:MM" ++ dq ++ js " or " ++ dq ++ js "h:mm AM/PM" ++ dq ++ js "."
  | InvalidDateFormat input =>
      js "Invalid date format: " ++ dq ++ input ++ dq ++ js "."
  | FieldRequired f =>
      js "Field " ++ dq ++ js f ++ dq ++ js " is required and must be a non-empty string."
  | ArrayRequired f =>
      dq ++ js f ++ dq ++ js " is required and must be a non-empty array of strings."
  | InvalidEmailFormat => js "Invalid email format for booking."
  | EventDoesNotExist => js "Referenced event does not exist."
  | MissingMongoUri =>
      js "Please define the MONGODB_URI environment variable inside .env.local or the environment."
  | ConnectFailure reason => js reason
  | TypeError => js "TypeError"
  end.

Inductive result (A : Type) : Type :=
| Ok (a : A)
| Throw (e : error).
Arguments Ok {A} a.
Arguments Throw {A} e.

(* ------------------------------------------------------------------ *)
(** ** event.model.ts: utilities *)

(** [/[^a-z0-9]+/] *)
Definition notSlugChar (c : ascii) : bool := negb (isLowerLetter c || isDigit c).
Definition nonSlugRunRe : regex := Plus notSlugChar.

(** [/(^-|-$)/] *)
Definition edgeDashRe : regex :=
  Group (Alt (Seq Bol (Lit "-")) (Seq (Lit "-") Eol)).

(** Create a URL-friendly slug from a title. *)
Definition slugify (value : jsstring) : jsstring :=
  replaceAll (replaceAll (trim (toLowerCase value)) nonSlugRunRe (js "-"))
             edgeDashRe [].

(** [/^(\d{1,2}):(\d{2})$/] *)
Definition hhmmRe : regex :=
  Seq Bol (Seq (Group (Class isDigit 1 (Some 2%nat)))
          (Seq (Lit ":")
          (Seq (Group (Class isDigit 2 (Some 2%nat)))
               Eol))).

(** [/^(\d{1,2})(?::(\d{2}))?\s*(am|pm)$/] *)
Definition ampmRe : regex :=
  Seq Bol (Seq (Group (Class isDigit 1 (Some 2%nat)))
          (Seq (Opt (Seq (Lit ":") (Group (Class isDigit 2 (Some 2%nat)))))
          (Seq (Star isWhiteSpace)
          (Seq (Group (Alt (Seq (Lit "a") (Lit "m")) (Seq (Lit "p") (Lit "m"))))
               Eol)))).

(** [m[i]] of a match array. *)
Definition group (m : captures) (i : nat) : option jsstring := mjoin (m !! i).

(** Truthiness of a capture: [undefined] and the empty string are falsy. *)
Definition truthy (g : option jsstring) : bool :=
  match g with Some (_ :: _) => true | _ => false end.

Definition two (n : number) : jsstring := padStart (numToString n) 2 (js "0").

(** Normalize common time formats into "HH:MM" 24-hour. *)
Definition normalizeTimeTo24 (input : jsstring) : result jsstring :=
  let trimmed := toLowerCase (trim input) in
  (* direct match "HH:MM" *)
  let direct :=
    match jsmatch trimmed hhmmRe with
    | Some hhmm =>
        let hh := parseInt (group hhmm 1) in
        let mm := parseInt (group hhmm 2) in
        if num_ge hh 0 && num_lt hh 24 && num_ge mm 0 && num_lt mm 60
        then Some (two hh ++ js ":" ++ two mm)
        else None
    | None => None
    end in
  match direct with
  | Some out => Ok out
  | None =>
      (* match "h[:mm] am/pm" *)
      let twelve :=
        match jsmatch trimmed ampmRe with
        | Some ampm =>
            let hour := parseInt (group ampm 1) in
            let minute := if truthy (group ampm 2)
                          then parseInt (group ampm 2) else Some 0 in
            let period := group ampm 3 in
            let hour := if bool_decide (period = Some (js "pm")) && negb (num_seq hour 12)
                        then num_add hour 12 else hour in
            let hour := if bool_decide (period = Some (js "am")) && num_seq hour 12
                        then Some 0 else hour in
            if num_ge hour 0 && num_lt hour 24 && num_ge minute 0 && num_lt minute 60
            then Some (two hour ++ js ":" ++ two minute)
            else None
        | None => None
        end in
      match twelve with
      | Some out => Ok out
      | None => Throw (InvalidTimeFormat input)
      end
  end.

(* ------------------------------------------------------------------ *)
(** ** The Date object

    [normalizeDateToISO] is [new Date(input)] followed by [toISOString()].
    Time values are milliseconds since the epoch, as integers; the day and
    calendar functions are those of ECMA-262 (section "Date Objects"). *)

Definition msPerDay : Z := 86400000.
Definition msPerHour : Z := 3600000.
Definition msPerMinute : Z := 60000.
Definition msPerSecond : Z := 1000.

Definition Day (t : Z) : Z := t / msPerDay.
Definition TimeWithinDay (t : Z) : Z := t mod msPerDay.

Definition DaysInYear (y : Z) : Z :=
  if negb (y mod 4 =? 0) then 365
  else if negb (y mod 100 =? 0) then 366
  else if negb (y mod 400 =? 0) then 365
  else 366.

Definition DayFromYear (y : Z) : Z :=
  365 * (y - 1970) + (y - 1969) / 4 - (y - 1901) / 100 + (y - 1601) / 400.

(** The largest [y] with [DayFromYear y <= Day t]: an estimate from the mean
    length of a year, corrected by at most one. *)
Definition YearFromTime (t : Z) : Z :=
  let d := Day t in
  let y := 1970 + (400 * d) / 146097 in
  if d <? DayFromYear y then y - 1
  else if DayFromYear (y + 1) <=? d then y + 1
  else y.

Definition leapDays (y : Z) : Z := DaysInYear y - 365.
Definition InLeapYear (t : Z) : Z := leapDays (YearFromTime t).
Definition DayWithinYear (t : Z) : Z := Day t - DayFromYear (YearFromTime t).

(** Day number, within a year, of the first day of month [m] (0-based). *)
Definition monthStart (leap m : Z) : Z :=
  match m with
  | 0 => 0
  | 1 => 31
  | 2 => 59 + leap
  | 3 => 90 + leap
  | 4 => 120 + leap
  | 5 => 151 + leap
  | 6 => 181 + leap
  | 7 => 212 + leap
  | 8 => 243 + leap
  | 9 => 273 + leap
  | 10 => 304 + leap
  | 11 => 334 + leap
  | _ => 365 + leap
  end.

Definition MonthFromTime (t : Z) : Z :=
  let d := DayWithinYear t in
  let leap := InLeapYear t in
  if d <? 31 then 0
  else if d <? 59 + leap then 1
  else if d <? 90 + leap then 2
  else if d <? 120 + leap then 3
  else if d <? 151 + leap then 4
  else if d <? 181 + leap then 5
  else if d <? 212 + leap then 6
  else if d <? 243 + leap then 7
  else if d <? 273 + leap then 8
  else if d <? 304 + leap then 9
  else if d <? 334 + leap then 10
  else 11.

Definition DateFromTime (t : Z) : Z :=
  DayWithinYear t - monthStart (InLeapYear t) (MonthFromTime t) + 1.

Definition HourFromTime (t : Z) : Z := (t / msPerHour) mod 24.
Definition MinFromTime (t : Z) : Z := (t / msPerMinute) mod 60.
Definition SecFromTime (t : Z) : Z := (t / msPerSecond) mod 60.
Definition msFromTime (t : Z) : Z := t mod msPerSecond.

Definition MakeTime (h m s ms : Z) : Z :=
  h * msPerHour + m * msPerMinute + s * msPerSecond + ms.

(** [MakeDay(year, month, date)] for a month in 0..11. *)
Definition MakeDay (year month date : Z) : Z :=
  DayFromYear year + monthStart (leapDays year) month + date - 1.

Definition MakeDate (day time : Z) : Z := day * msPerDay + time.

Definition maxTime : Z := 8640000000000000.

Definition TimeClip (t : number) : number :=
  match t with
  | Some x => if maxTime <? Z.abs x then None else Some x
  | None => None
  end.

Definition DaysInMonth (year month : Z) : Z :=
  monthStart (leapDays year) (month + 1) - monthStart (leapDays year) month.

Definition pad (len : nat) (n : Z) : jsstring :=
  padStart (numToString (Some n)) len (js "0").

(** The year of the ISO form: four digits for the years 0..9999, a sign and
    six digits otherwise. *)
Definition yearString (y : Z) : jsstring :=
  if (0 <=? y) && (y <=? 9999) then pad 4 y
  else (if y <? 0 then "-"%char else "+"%char) :: pad 6 (Z.abs y).

(** [Date.prototype.toISOString] of a valid time value. *)
Definition toISOString (t : Z) : jsstring :=
  yearString (YearFromTime t)
  ++ js "-" ++ pad 2 (MonthFromTime t + 1) ++ js "-" ++ pad 2 (DateFromTime t)
  ++ js "T" ++ pad 2 (HourFromTime t) ++ js ":" ++ pad 2 (MinFromTime t)
  ++ js ":" ++ pad 2 (SecFromTime t) ++ js "." ++ pad 3 (msFromTime t) ++ js "Z".

Definition isSign (c : ascii) : bool :=
  bool_decide (c = "+"%char) || bool_decide (c = "-"%char).

Definition digits (n : nat) : regex := Class isDigit n (Some n).

(** [[+-]\d{6}|\d{4}] *)
Definition yearRe : regex := Alt (Seq (One isSign) (digits 6)) (digits 4).

(** The complete form of the ECMAScript date-time string format, in UTC:
    [YYYY-MM-DDTHH:mm:ss.sssZ], the year possibly expanded to a sign and six
    digits: [/^([+-]\d{6}|\d{4})-(\d{2})-(\d{2})T(\d{2}):(\d{2}):(\d{2})\.(\d{3})Z$/]. *)
Definition isoRe : regex :=
  Seq Bol
 (Seq (Group yearRe)
 (Seq (Lit "-") (Seq (Group (digits 2))
 (Seq (Lit "-") (Seq (Group (digits 2))
 (Seq (Lit "T") (Seq (Group (digits 2))
 (Seq (Lit ":") (Seq (Group (digits 2))
 (Seq (Lit ":") (Seq (Group (digits 2))
 (Seq (Lit ".") (Seq (Group (digits 3))
 (Seq (Lit "Z") Eol)))))))))))))).

Definition getOr0 (n : number) : Z := default 0 n.

(** [Date.parse] on the complete UTC form.  Only strings every engine reads
    the same way are decided here: the fields must be in range (month 1..12,
    a day that exists in that month, hour up to 23) and the year must not be
    [-000000]; anything else is left to [otherFormats] below. *)
Definition parseISO (s : jsstring) : number :=
  match jsmatch s isoRe with
  | Some m =>
      let y := getOr0 (parseInt (group m 1)) in
      let mo := getOr0 (parseInt (group m 2)) in
      let d := getOr0 (parseInt (group m 3)) in
      let h := getOr0 (parseInt (group m 4)) in
      let mi := getOr0 (parseInt (group m 5)) in
      let sec := getOr0 (parseInt (group m 6)) in
      let ms := getOr0 (parseInt (group m 7)) in
      if (1 <=? mo) && (mo <=? 12) && (1 <=? d) && (d <=? DaysInMonth y (mo - 1))
         && (h <=? 23) && (mi <=? 59) && (sec <=? 59)
         && negb (bool_decide (group m 1 = Some (js "-000000")))
      then Some (MakeDate (MakeDay y (mo - 1) d) (MakeTime h mi sec ms))
      else None
  | None => None
  end.

Section DateObject.

(** What [Date.parse] does with every other string (shorter ISO forms,
    offsets, local times, the engine's own legacy formats); NaN is
    [None]. *)
Variable otherFormats : jsstring -> number.

Definition DateParse (s : jsstring) : number :=
  match parseISO s with
  | Some t => Some t
  | None => otherFormats s
  end.

(** [new Date(s).getTime()] *)
Definition newDate (s : jsstring) : number := TimeClip (DateParse s).

(** Normalize a date string to ISO (YYYY-MM-DDTHH:mm:ss.sssZ). *)
Definition normalizeDateToISO (input : jsstring) : result jsstring :=
  match newDate input with
  | None => Throw (InvalidDateFormat input)
  | Some t => Ok (toISOString t)
  end.

End DateObject.

(* ------------------------------------------------------------------ *)
(** ** Documents

    A document is a JavaScript object: a finite map from property names to
    values; a missing property reads as [undefined]. *)

Abbreviation ObjectId := N.

Inductive value : Type :=
| VUndefined
| VNull
| VBool (b : bool)
| VNum (n : number)
| VStr (s : jsstring)
| VArr (items : list jsstring)
| VId (id : ObjectId).

Abbreviation object := (gmap string value).

Definition prop (this : object) (name : string) : value :=
  default VUndefined (this !! name).

(** [typeof v === "string"] *)
Definition isString (v : value) : bool :=
  match v with VStr _ => true | _ => false end.

(** [!v] is [negb (toBoolean v)] *)
Definition toBoolean (v : value) : bool :=
  match v with
  | VUndefined | VNull => false
  | VBool b => b
  | VNum n => match n with Some 0 | None => false | Some _ => true end
  | VStr s => negb (isEmpty s)
  | VArr _ | VId _ => true
  end.

(** *** Hook bodies: a state and exception monad over [this] *)

Definition hook (A : Type) : Type := object -> object * result A.

Definition ret {A} (a : A) : hook A := fun this => (this, Ok a).
Definition throw {A} (e : error) : hook A := fun this => (this, Throw e).
Definition bind {A B} (m : hook A) (k : A -> hook B) : hook B :=
  fun this =>
    match m this with
    | (this', Ok a) => k a this'
    | (this', Throw e) => (this', Throw e)
    end.
Definition getProp (name : string) : hook value := fun this => (this, Ok (prop this name)).
Definition setProp (name : string) (v : value) : hook unit :=
  fun this => (<[name := v]> this, Ok tt).
Definition lift {A} (r : result A) : hook A := fun this => (this, r).

Instance hook_ret : MRet hook := @ret.
Instance hook_bind : MBind hook := fun A B k m => bind m k.

(** Calling a string function on a value: a [TypeError] unless it is a
    string. *)
Definition asString (v : value) : hook jsstring :=
  match v with VStr s => ret s | _ => throw TypeError end.

Fixpoint forEach {A} (l : list A) (body : A -> hook unit) : hook unit :=
  match l with
  | [] => ret tt
  | x :: l' => body x ;; forEach l' body
  end.

(* ------------------------------------------------------------------ *)
(** ** event.model.ts: the pre-save hook *)

Definition requiredStringFields : list string :=
  ["title"; "description"; "overview"; "image"; "venue"; "location";
   "date"; "time"; "mode"; "audience"; "organizer"]%string.

(** [typeof val !== "string" || val.trim().length === 0] *)
Definition blank (val : value) : bool :=
  match val with
  | VStr s => (length (trim s) =? 0)%nat
  | _ => true
  end.

(** [!Array.isArray(v) || v.length === 0] *)
Definition noItems (v : value) : bool :=
  match v with
  | VArr items => (length items =? 0)%nat
  | _ => true
  end.

Section EventHook.

Variable otherFormats : jsstring -> number.

(** [this.isModified(path)] of the document being saved. *)
Variable isModified : string -> bool.

Definition eventPreSave : hook unit :=
  (* Validate required string fields are non-empty *)
  forEach requiredStringFields (fun field =>
    val ← getProp field;
    if blank val then throw (FieldRequired field) else ret tt) ;;
  (* Ensure arrays are present and non-empty *)
  agenda ← getProp "agenda";
  (if noItems agenda then throw (ArrayRequired "agenda") else ret tt) ;;
  tags ← getProp "tags";
  (if noItems tags then throw (ArrayRequired "tags") else ret tt) ;;
  (* Slug generation: only regenerate if title changed or slug absent *)
  slug ← getProp "slug";
  (if isModified "title" || negb (toBoolean slug)
   then title ← getProp "title";
        t ← asString title;
        setProp "slug" (VStr (slugify t))
   else ret tt) ;;
  (* Normalize date -> ISO string *)
  date ← getProp "date";
  d ← asString date;
  iso ← lift (normalizeDateToISO otherFormats d);
  setProp "date" (VStr iso) ;;
  (* Normalize time -> "HH:MM" 24-hour *)
  time ← getProp "time";
  t ← asString time;
  hhmm ← lift (normalizeTimeTo24 t);
  setProp "time" (VStr hhmm).

End EventHook.

(* ------------------------------------------------------------------ *)
(** ** The booking model *)

(** [[^\s@]] *)
Definition emailChar (c : ascii) : bool :=
  negb (isWhiteSpace c || bool_decide (c = "@"%char)).

(** [/^[^\s@]+@[^\s@]+\.[^\s@]+$/] *)
Definition emailRe : regex :=
  Seq Bol (Seq (Plus emailChar) (Seq (Lit "@") (Seq (Plus emailChar)
          (Seq (Lit ".") (Seq (Plus emailChar) Eol))))).

(** Simple RFC-like email validation. *)
Definition isValidEmail (email : jsstring) : bool := test emailRe email.

(** The two collections.  Bookings are kept in insertion order. *)
Record store : Type := {
  events : gmap ObjectId object;
  bookings : list object;
}.

(** [Event.exists({ _id: id })]: a document or [null], read for its
    truthiness. *)
Definition EventExists (db : store) (id : value) : bool :=
  match id with
  | VId i => bool_decide (is_Some (events db !! i))
  | _ => false
  end.

(** The hook reads the store once, at the existence check. *)
Definition bookingPreSave (db : store) : hook unit :=
  email ← getProp "email";
  (if negb (isString email)
      || negb (match email with VStr s => isValidEmail s | _ => false end)
   then throw InvalidEmailFormat else ret tt) ;;
  (* Ensure referenced event exists *)
  eventId ← getProp "eventId";
  if negb (EventExists db eventId) then throw EventDoesNotExist else ret tt.

(** [booking.save()]: the hook runs first and, as its doc comment says,
    throwing an error aborts the save; otherwise the document is written. *)
Definition saveBooking (db : store) (this : object) : store * result unit :=
  match bookingPreSave db this with
  | (this', Ok _) =>
      ({| events := events db; bookings := bookings db ++ [this'] |}, Ok tt)
  | (_, Throw e) => (db, Throw e)
  end.

(* ------------------------------------------------------------------ *)
(** ** lib/mongodb.ts

    [connectToDatabase] is an async function: it runs without interruption up
    to an [await], and again from the [await] to its end once the awaited
    promise has settled.  [connectToDatabase] below is the first stretch,
    from the call to the first [await] or to an immediate result, and
    [connectToDatabase_resume] the second. *)

(** A connected Mongoose instance, by identity, and a promise, by the order
    of its creation. *)
Abbreviation Mongoose := N.
Abbreviation promiseId := nat.

(** [globalThis.__mongoose] *)
Record MongooseCache : Type := {
  conn : option Mongoose;
  promise : option promiseId;
}.

(** The part of the process the function touches: the cache, the promises
    created so far ([None] while pending) and the log of [mongoose.connect]
    calls with the URI each was given. *)
Record world : Type := {
  cache : MongooseCache;
  promises : list (option (result Mongoose));
  connectLog : list jsstring;
}.

Definition emptyCache : MongooseCache := {| conn := None; promise := None |}.
Definition initialWorld : world :=
  {| cache := emptyCache; promises := []; connectLog := [] |}.

(** Which [await] a suspended call sits at. *)
Inductive awaitSite : Type :=
| InFlight        (* line 56: awaiting the promise found in the cache *)
| Own.            (* line 82: awaiting the promise this call created, inside try *)

Inductive progress : Type :=
| Done (r : result Mongoose)
| Await (p : promiseId) (site : awaitSite).

(** [process.env.MONGODB_URI?.trim()], then [!MONGODB_URI]. *)
Definition configuredUri (env : option jsstring) : option jsstring :=
  match trim <$> env with
  | Some (c :: u) => Some (c :: u)
  | _ => None
  end.

Definition connectToDatabase (env : option jsstring) (w : world) : world * progress :=
  match configuredUri env with
  | None => (w, Done (Throw MissingMongoUri))
  | Some uri =>
      match conn (cache w) with
      | Some m =>
          (* If connection is already established, return it immediately. *)
          (w, Done (Ok m))
      | None =>
          match promise (cache w) with
          | Some p =>
              (* If a connection is in progress, await it. *)
              (w, Await p InFlight)
          | None =>
              (* Create a new connection promise and store it. *)
              let p := length (promises w) in
              ({| cache := {| conn := None; promise := Some p |};
                  promises := promises w ++ [None];
                  connectLog := connectLog w ++ [uri] |},
               Await p Own)
          end
      end
  end.

Definition setConn (m : Mongoose) (w : world) : world :=
  {| cache := {| conn := Some m; promise := promise (cache w) |};
     promises := promises w; connectLog := connectLog w |}.

Definition clearPromise (w : world) : world :=
  {| cache := {| conn := conn (cache w); promise := None |};
     promises := promises w; connectLog := connectLog w |}.

(** The stretch after the [await], given how the promise settled. *)
Definition connectToDatabase_resume (site : awaitSite) (settled : result Mongoose)
    (w : world) : world * result Mongoose :=
  match site, settled with
  | _, Ok m => (setConn m w, Ok m)
  | InFlight, Throw e => (w, Throw e)
  | Own, Throw e =>
      (* Clear the promise so future calls can retry connection. *)
      (clearPromise w, Throw e)
  end.

(** *** Callers sharing the event loop

    Any number of calls may be suspended at once.  An event is a new call, the
    settling of a pending promise by the driver, or the resumption of a
    suspended call whose promise has settled; events that cannot happen in the
    current state leave it unchanged. *)

Abbreviation caller := nat.

Inductive event : Type :=
| Call (c : caller)
| Settle (p : promiseId) (r : result Mongoose)
| Resume (c : caller).

Record system : Type := {
  sworld : world;
  suspended : list (caller * (promiseId * awaitSite));
  returned : list (caller * result Mongoose);
}.

Definition initialSystem : system :=
  {| sworld := initialWorld; suspended := []; returned := [] |}.

Definition settle (p : promiseId) (r : result Mongoose) (w : world) : world :=
  match promises w !! p with
  | Some None =>
      {| cache := cache w; promises := <[p := Some r]> (promises w);
         connectLog := connectLog w |}
  | _ => w
  end.

(** The first suspended call of caller [c], and the list without it. *)
Fixpoint takeCaller {A} (c : caller) (l : list (caller * A))
    : option (A * list (caller * A)) :=
  match l with
  | [] => None
  | (c', a) :: l' =>
      if bool_decide (c' = c) then Some (a, l')
      else (fun '(x, rest) => (x, (c', a) :: rest)) <$> takeCaller c l'
  end.

Definition step (env : option jsstring) (e : event) (s : system) : system :=
  match e with
  | Call c =>
      match connectToDatabase env (sworld s) with
      | (w, Done r) =>
          {| sworld := w; suspended := suspended s; returned := returned s ++ [(c, r)] |}
      | (w, Await p site) =>
          {| sworld := w; suspended := suspended s ++ [(c, (p, site))];
             returned := returned s |}
      end
  | Settle p r =>
      {| sworld := settle p r (sworld s); suspended := suspended s;
         returned := returned s |}
  | Resume c =>
      match takeCaller c (suspended s) with
      | Some ((p, site), rest) =>
          match promises (sworld s) !! p with
          | Some (Some settled) =>
              let '(w, r) := connectToDatabase_resume site settled (sworld s) in
              {| sworld := w; suspended := rest;
                 returned := returned s ++ [(c, r)] |}
          | _ => s
          end
      | None => s
      end
  end.

Definition runEvents (env : option jsstring) (tr : list event) (s : system) : system :=
  fold_left (fun s e => step env e s) tr s.

(* ================================================================== *)
(** * Specification-side definitions *)

(* ------------------------------------------------------------------ *)
(** ** What a pattern matches *)

(** [Matches r bol c rest k]: the pattern [r], started at the beginning of
    the input iff [bol], can consume [c] in front of [rest], with captures
    [k]. *)
Inductive Matches : regex -> bool -> jsstring -> jsstring -> captures -> Prop :=
| MEps bol rest : Matches Eps bol [] rest []
| MBol rest : Matches Bol true [] rest []
| MEol bol : Matches Eol bol [] [] []
| MLit x bol rest : Matches (Lit x) bol [x] rest []
| MClass p lo hi bol c rest :
    forallb p c = true -> (lo <= length c)%nat ->
    (forall h, hi = Some h -> (length c <= h)%nat) ->
    Matches (Class p lo hi) bol c rest []
| MSeq r1 r2 bol c1 c2 rest k1 k2 :
    Matches r1 bol c1 (c2 ++ rest) k1 ->
    Matches r2 (bol && isEmpty c1) c2 rest k2 ->
    Matches (Seq r1 r2) bol (c1 ++ c2) rest (k1 ++ k2)
| MAltL r1 r2 bol c rest k :
    Matches r1 bol c rest k ->
    Matches (Alt r1 r2) bol c rest (k ++ replicate (ngroups r2) None)
| MAltR r1 r2 bol c rest k :
    Matches r2 bol c rest k ->
    Matches (Alt r1 r2) bol c rest (replicate (ngroups r1) None ++ k)
| MGroup r bol c rest k :
    Matches r bol c rest k -> Matches (Group r) bol c rest (Some c :: k).

(* ------------------------------------------------------------------ *)
(** ** The email grammar *)

(** No white space and no [@]. *)
Definition plain (s : jsstring) : Prop := forallb emailChar s = true.

(** The grammar in the specification's words: [localpart@domain], both
    without white space or [@], the local part not empty, and the domain with
    a dot that has at least one character before it and after it. *)
Definition EmailForm (s : jsstring) : Prop :=
  exists localpart domain,
    s = localpart ++ "@"%char :: domain /\
    localpart <> [] /\ plain localpart /\ plain domain /\
    exists before after,
      domain = before ++ "."%char :: after /\ before <> [] /\ after <> [].

(** The email property passes the first check of the hook. *)
Definition emailAccepted (this : object) : bool :=
  match prop this "email" with
  | VStr s => isValidEmail s
  | _ => false
  end.

(* ------------------------------------------------------------------ *)
(** ** The stages of the Event hook *)

Section EventStages.

Variable otherFormats : jsstring -> number.
Variable isModified : string -> bool.

(** The statements of the hook after the checks. *)
Definition eventNormalize : hook unit :=
  slug ← getProp "slug";
  (if isModified "title" || negb (toBoolean slug)
   then title ← getProp "title";
        t ← asString title;
        setProp "slug" (VStr (slugify t))
   else ret tt) ;;
  date ← getProp "date";
  d ← asString date;
  iso ← lift (normalizeDateToISO otherFormats d);
  setProp "date" (VStr iso) ;;
  time ← getProp "time";
  t ← asString time;
  hhmm ← lift (normalizeTimeTo24 t);
  setProp "time" (VStr hhmm).

Definition checkField (field : string) : hook unit :=
  val ← getProp field;
  if blank val then throw (FieldRequired field) else ret tt.

End EventStages.

(* ------------------------------------------------------------------ *)
(** ** The slug, as worded *)

Definition isDash (c : ascii) : bool := bool_decide (c = "-"%char).

Fixpoint dropWhile (p : ascii -> bool) (s : jsstring) : jsstring :=
  match s with
  | c :: s' => if p c then dropWhile p s' else s
  | [] => []
  end.

(** Every maximal run of characters outside [a-z0-9] becomes one dash;
    [inRun] tells that the dash of the current run is already out. *)
Fixpoint collapseRuns (inRun : bool) (s : jsstring) : jsstring :=
  match s with
  | [] => []
  | c :: s' =>
      if notSlugChar c
      then if inRun then collapseRuns true s' else "-"%char :: collapseRuns true s'
      else c :: collapseRuns false s'
  end.

(** All dashes at both ends go. *)
Definition stripDashes (s : jsstring) : jsstring :=
  rev (dropWhile isDash (rev (dropWhile isDash s))).

(** The derivation in the specification's words: lowercase, trim, collapse
    the runs, strip the dashes at the ends. *)
Definition slugifySpec (title : jsstring) : jsstring :=
  stripDashes (collapseRuns false (trim (toLowerCase title))).

(** What the two [replace] calls of the code do. *)
Definition dropFirstDash (s : jsstring) : jsstring :=
  match s with
  | x :: s' => if isDash x then s' else s
  | [] => []
  end.

Fixpoint dropFinalDash (s : jsstring) : jsstring :=
  match s with
  | [] => []
  | x :: s' => if isDash x && isEmpty s' then [] else x :: dropFinalDash s'
  end.

Fixpoint noDoubleDash (s : jsstring) : bool :=
  match s with
  | [] => true
  | x :: s' =>
      match s' with
      | y :: _ => negb (isDash x && isDash y)
      | [] => true
      end && noDoubleDash s'
  end.

(* ------------------------------------------------------------------ *)
(** ** Canonical times *)

(** The canonical form: two digits, a colon, two digits, in range. *)
Definition hhmm (h m : Z) : jsstring := two (Some h) ++ js ":" ++ two (Some m).

Definition canonicalFixed (h m : Z) : bool :=
  match normalizeTimeTo24 (hhmm h m) with
  | Ok out => bool_decide (out = hhmm h m)
  | Throw _ => false
  end.

(* ------------------------------------------------------------------ *)
(** ** Invariants of the connection cache *)

(** The promises awaited by the calls that created them. *)
Definition owned (l : list (caller * (promiseId * awaitSite))) : list promiseId :=
  omap (fun x => match x.2.2 with Own => Some x.2.1 | InFlight => None end) l.

Definition rejected (w : world) (q : promiseId) : Prop :=
  exists e, promises w !! q = Some (Some (Throw e)).

(** What every reachable state satisfies. *)
Record Inv (s : system) : Prop := {
  (* the promise in the slot is the one created last *)
  inv_slot : forall p, promise (cache (sworld s)) = Some p ->
               S p = length (promises (sworld s));
  (* every other promise was rejected *)
  inv_old : forall q, (q < length (promises (sworld s)))%nat ->
              promise (cache (sworld s)) <> Some q -> rejected (sworld s) q;
  (* the live handle is what the promise in the slot resolved to *)
  inv_conn : forall m, conn (cache (sworld s)) = Some m ->
               exists p, promise (cache (sworld s)) = Some p /\
                         promises (sworld s) !! p = Some (Some (Ok m));
  (* suspended calls await promises that exist *)
  inv_susp : forall c p site, (c, (p, site)) ∈ suspended s ->
               (p < length (promises (sworld s)))%nat;
  (* at most one suspended call awaits its own promise: the one in the slot *)
  inv_owner : match owned (suspended s) with
              | [] => True
              | [p] => promise (cache (sworld s)) = Some p
              | _ => False
              end;
  (* one connect call per promise *)
  inv_log : length (connectLog (sworld s)) = length (promises (sworld s));
  (* a handle that was returned is the live handle *)
  inv_ret : forall c m, (c, Ok m) ∈ returned s -> conn (cache (sworld s)) = Some m;
}.

Definition noReject (e : event) : bool :=
  match e with
  | Settle _ (Throw _) => false
  | _ => true
  end.

Definition callers (tr : list event) : list caller :=
  omap (fun e => match e with Call c => Some c | _ => None end) tr.

Record Quiet (uri : jsstring) (tr : list event) (s : system) : Prop := {
  (* no promise was rejected and no call failed *)
  quiet_promises : forall q e, promises (sworld s) !! q <> Some (Some (Throw e));
  quiet_returned : forall c r, (c, r) ∈ returned s -> exists m, r = Ok m;
  (* every call made is suspended or has returned *)
  quiet_callers : forall c, c ∈ callers tr -> c ∈ (suspended s).*1 \/ c ∈ (returned s).*1;
  (* a call leaves an attempt behind *)
  quiet_started : callers tr <> [] -> (1 <= length (promises (sworld s)))%nat;
  (* every connect used the configured URI *)
  quiet_log : Forall (eq uri) (connectLog (sworld s));
}.

(* ------------------------------------------------------------------ *)
(** ** Definitions for the further properties *)

(** [[a-z0-9]] *)
Definition isSlugChar (c : ascii) : bool := isLowerLetter c || isDigit c.

(** The characters a slug can hold. *)
Definition slugAlphabet (c : ascii) : bool := isSlugChar c || isDash c.

(** The letters and digits of a string, in order. *)
Definition slugChars (s : jsstring) : jsstring := List.filter isSlugChar s.

(** The normalizer returns the canonical time [h]:[m] on this input. *)
Definition accepts (input : jsstring) (h m : Z) : bool :=
  match normalizeTimeTo24 input with
  | Ok out => bool_decide (out = hhmm h m)
  | Throw _ => false
  end.

(** The ways to write a 24-hour time: the hour with or without its leading
    zero. *)
Definition writings24 (h m : Z) : list jsstring :=
  [pad 2 h ++ js ":" ++ pad 2 m; decimal h ++ js ":" ++ pad 2 m].

(** The ways to write a 12-hour time: minutes or not when they are zero, no
    space, one or two before the period, either case. *)
Definition writings12 (h m : Z) (period : string) (PERIOD : string) : list jsstring :=
  let hours := [decimal h; pad 2 h] in
  let minutes := if m =? 0 then [[]; js ":" ++ pad 2 m] else [js ":" ++ pad 2 m] in
  let gaps := [[]; js " "; js "  "] in
  let periods := [js period; js PERIOD] in
  hs ← hours; ms ← minutes; g ← gaps; p ← periods; [hs ++ ms ++ g ++ p].

(** The slug statement of the hook, on a document whose title is [title]. *)
Definition slugStep (isModified : string -> bool) (this : object) (title : jsstring)
    : object :=
  if isModified "title" || negb (toBoolean (prop this "slug"))
  then <["slug"%string := VStr (slugify title)]> this
  else this.

(** All the checks of the Event hook pass. *)
Definition checksPass (this : object) : bool :=
  forallb (fun f => negb (blank (prop this f))) requiredStringFields
  && negb (noItems (prop this "agenda")) && negb (noItems (prop this "tags")).

(** How many [@] a string holds. *)
Definition countAt (s : jsstring) : nat :=
  length (List.filter (fun c => bool_decide (c = "@"%char)) s).

(** A promise that is pending or fulfilled. *)
Definition notRejected (o : option (result Mongoose)) : bool :=
  match o with
  | Some (Throw _) => false
  | _ => true
  end.

Definition isRejected (o : option (result Mongoose)) : bool := negb (notRejected o).

(* ------------------------------------------------------------------ *)
(** ** Sample data *)

Definition sampleUri : jsstring := js "mongodb://localhost/dev".

Definition liveWorld : world :=
  {| cache := {| conn := Some 7%N; promise := Some 0%nat |};
     promises := [Some (Ok 7%N)];
     connectLog := [sampleUri] |}.

Definition sampleEvents : gmap ObjectId object :=
  {[ 1%N := {[ "title"%string := VStr (js "Launch") ]} ]}.

Definition sampleStore : store := {| events := sampleEvents; bookings := [] |}.

Definition sampleBooking (id : ObjectId) : object :=
  {[ "email"%string := VStr (js "a@b.com"); "eventId"%string := VId id ]}.

Definition sampleEvent : object :=
  list_to_map
    [("title", VStr (js "Hello, World!")); ("description", VStr (js "A meetup"));
     ("overview", VStr (js "Talks")); ("image", VStr (js "/img.png"));
     ("venue", VStr (js "Hall 1")); ("location", VStr (js "Pune"));
     ("date", VStr (js "2024-01-15T10:00:00.000Z")); ("time", VStr (js "9:30 PM"));
     ("mode", VStr (js "offline")); ("audience", VStr (js "devs"));
     ("organizer", VStr (js "DevEvents")); ("agenda", VArr [js "Intro"]);
     ("tags", VArr [js "web"])]%string.

Definition noOtherFormats (s : jsstring) : number := None.

(** A legacy format, to have an input that is not yet canonical. *)
Definition sampleLegacy (s : jsstring) : number :=
  if bool_decide (s = js "January 15, 2024 10:00 UTC") then Some 1705312800000
  else None.

(** An event whose date is not a date. *)
Definition undatedEvent : object :=
  <["date"%string := VStr (js "not-a-date")]> sampleEvent.

(* ================================================================== *)
(** * Properties *)

(* ------------------------------------------------------------------ *)
(** ** The connection cache, one call at a time *)

Lemma trimStart_blank (s : jsstring) :
  forallb isWhiteSpace s = true -> trimStart s = [].
Proof.
  induction s as [|c s IH]; simpl; [done|].
  intros [Hc Hs]%andb_prop. rewrite Hc. auto.
Qed.

Lemma trim_blank (s : jsstring) : forallb isWhiteSpace s = true -> trim s = [].
Proof. intros H. unfold trim, trimEnd. by rewrite (trimStart_blank s H). Qed.

Lemma configuredUri_None (env : option jsstring) :
  configuredUri env = None <-> env = None \/ exists u, env = Some u /\ trim u = [].
Proof.
  unfold configuredUri. destruct env as [u|]; simpl.
  - destruct (trim u) eqn:E; split; try done.
    + intros _. right. by exists u.
    + intros [?|(u' & [= <-] & Hu)]; congruence.
  - split; auto.
Qed.

Lemma connectToDatabase_unconfigured (env : option jsstring) (w : world) :
  configuredUri env = None -> connectToDatabase env w = (w, Done (Throw MissingMongoUri)).
Proof. unfold connectToDatabase. by intros ->. Qed.

Lemma connectToDatabase_live (env : option jsstring) (w : world) (uri : jsstring) (m : Mongoose) :
  configuredUri env = Some uri -> conn (cache w) = Some m ->
  connectToDatabase env w = (w, Done (Ok m)).
Proof. unfold connectToDatabase. by intros -> ->. Qed.

Lemma connectToDatabase_fresh (env : option jsstring) (w : world) (uri : jsstring) :
  configuredUri env = Some uri -> conn (cache w) = None -> promise (cache w) = None ->
  connectToDatabase env w =
    ({| cache := {| conn := None; promise := Some (length (promises w)) |};
        promises := promises w ++ [None];
        connectLog := connectLog w ++ [uri] |},
     Await (length (promises w)) Own).
Proof. unfold connectToDatabase. by intros -> -> ->. Qed.

Lemma connectToDatabase_join (env : option jsstring) (w : world) (uri : jsstring) (p : promiseId) :
  configuredUri env = Some uri -> conn (cache w) = None -> promise (cache w) = Some p ->
  connectToDatabase env w = (w, Await p InFlight).
Proof. unfold connectToDatabase. by intros -> -> ->. Qed.

(** C10. A connection URI that is set but empty or all white space is
    treated like an absent one: the trimmed value is empty, and the call
    fails with the missing-configuration error, leaving the world as it
    was. *)
Theorem blank_uri_is_missing_uri (u : jsstring) (w : world) :
  forallb isWhiteSpace u = true \/ trim u = [] ->
  connectToDatabase (Some u) w = connectToDatabase None w /\
  connectToDatabase (Some u) w = (w, Done (Throw MissingMongoUri)).
Proof.
  intros H.
  assert (Hu : trim u = []) by (destruct H; [by apply trim_blank | done]).
  assert (Hc : configuredUri (Some u) = None).
  { apply configuredUri_None. right. by exists u. }
  split; [|by apply connectToDatabase_unconfigured].
  by rewrite !connectToDatabase_unconfigured.
Qed.

Lemma blank_uri_is_missing_uri_witness :
  connectToDatabase (Some (js "   ")) initialWorld = connectToDatabase None initialWorld /\
  connectToDatabase (Some (js "   ")) initialWorld
  = (initialWorld, Done (Throw MissingMongoUri)).
Proof. apply (blank_uri_is_missing_uri (js "   ") initialWorld). left. reflexivity. Defined.

(** C2, as stated, fails: with a live handle in the cache and no URI
    configured the call throws the configuration error instead of returning
    the handle. *)
Lemma live_handle_without_uri_throws :
  conn (cache liveWorld) = Some 7%N /\
  connectToDatabase None liveWorld = (liveWorld, Done (Throw MissingMongoUri)).
Proof. split; reflexivity. Qed.

(** C2, amended. The URI check comes first.  When the URI is missing or
    blank the call throws the configuration error whatever the cache holds,
    before any I/O and without touching the cache, and it throws that error in
    no other case.  When a URI is configured and a live handle exists, the
    call returns that handle at once, with no I/O and no change to the
    cache. *)
Theorem live_handle_needs_uri (env : option jsstring) (w : world) :
  (configuredUri env = None ->
     connectToDatabase env w = (w, Done (Throw MissingMongoUri))) /\
  ((connectToDatabase env w).2 = Done (Throw MissingMongoUri) ->
     configuredUri env = None) /\
  (forall uri m,
     configuredUri env = Some uri -> conn (cache w) = Some m ->
     connectToDatabase env w = (w, Done (Ok m))).
Proof.
  split; [apply connectToDatabase_unconfigured|]. split.
  - unfold connectToDatabase. destruct (configuredUri env) as [uri|]; [|done].
    by destruct (conn (cache w)), (promise (cache w)).
  - apply connectToDatabase_live.
Qed.

Lemma live_handle_needs_uri_witness :
  connectToDatabase (Some sampleUri) liveWorld = (liveWorld, Done (Ok 7%N)) /\
  connectToDatabase (Some (js " ")) liveWorld = (liveWorld, Done (Throw MissingMongoUri)).
Proof.
  destruct (live_handle_needs_uri (Some sampleUri) liveWorld) as (_ & _ & H).
  destruct (live_handle_needs_uri (Some (js " ")) liveWorld) as (H' & _).
  split; [by apply (H sampleUri 7%N)|by apply H'].
Defined.

(* ------------------------------------------------------------------ *)
(** ** Regular expressions: what [run] enumerates *)

Lemma span_length p hi s : (span p hi s <= length s)%nat.
Proof.
  revert hi. induction s as [|c s IH]; intros [[|h]|]; simpl; try lia;
    destruct (p c); simpl; try lia.
  - specialize (IH (Some h)). lia.
  - specialize (IH None). lia.
Qed.

Lemma span_bound p h s : (span p (Some h) s <= h)%nat.
Proof.
  revert h. induction s as [|c s IH]; intros [|h]; simpl; try lia.
  destruct (p c); [|lia]. specialize (IH h). simpl. lia.
Qed.

Lemma span_take p hi s n :
  (n <= span p hi s)%nat -> forallb p (take n s) = true.
Proof.
  revert hi n. induction s as [|c s IH]; intros hi [|n]; simpl; try done.
  destruct hi as [[|h]|]; simpl; try lia.
  - destruct (p c); [|lia]. intros H. apply (IH (Some h)). simpl. lia.
  - destruct (p c); [|lia]. intros H. apply (IH None). simpl. lia.
Qed.

Lemma span_prefix p hi c rest :
  forallb p c = true -> (forall h, hi = Some h -> (length c <= h)%nat) ->
  (length c <= span p hi (c ++ rest))%nat.
Proof.
  revert hi. induction c as [|x c IH]; intros hi Hp Hh; simpl; [lia|].
  simpl in Hp. apply andb_prop in Hp as [Hx Hc].
  destruct hi as [[|h]|]; simpl.
  - specialize (Hh _ eq_refl). simpl in Hh. lia.
  - rewrite Hx. specialize (IH (Some h) Hc). simpl in IH.
    enough (length c <= span p (Some h) (c ++ rest))%nat by lia.
    apply IH. intros h' [= <-]. specialize (Hh _ eq_refl). simpl in Hh. lia.
  - rewrite Hx. specialize (IH None Hc). simpl in IH.
    enough (length c <= span p None (c ++ rest))%nat by lia.
    apply IH. done.
Qed.

Lemma In_downto lo n m : In n (downto lo m) <-> (lo <= n <= m)%nat.
Proof.
  induction m as [|m IH]; simpl.
  - destruct (Nat.ltb_spec 0 lo); simpl; lia.
  - destruct (Nat.ltb_spec (S m) lo); simpl; [lia|].
    rewrite IH. lia.
Qed.

Lemma forallb_app_true {A} (p : A -> bool) (l1 l2 : list A) :
  forallb p (l1 ++ l2) = true <-> forallb p l1 = true /\ forallb p l2 = true.
Proof. rewrite forallb_app. apply andb_true_iff. Qed.

(** [run] lists exactly the matches. *)
Lemma run_spec r : forall bol s c k rest,
  In (c, k, rest) (run r bol s) <-> s = c ++ rest /\ Matches r bol c rest k.
Proof.
  induction r as [| | |x|p lo hi|r1 IH1 r2 IH2|r1 IH1 r2 IH2|r IH];
    intros bol s c k rest; simpl.
  - split.
    + intros [[= <- <- <-]|[]]. split; [done|constructor].
    + intros [-> H]. inversion H; subst. by left.
  - destruct bol; simpl.
    + split.
      * intros [[= <- <- <-]|[]]. split; [done|constructor].
      * intros [-> H]. inversion H; subst. by left.
    + split; [done|]. intros [_ H]. inversion H.
  - destruct s as [|y s]; simpl.
    + split.
      * intros [[= <- <- <-]|[]]. split; [done|constructor].
      * intros [Hs H]. inversion H; subst. by left.
    + split; [done|]. intros [Hs H]. inversion H; subst. done.
  - destruct s as [|y s]; simpl.
    + split; [done|]. intros [Hs H]. inversion H; subst. done.
    + case_bool_decide as Hy; simpl.
      * subst y. split.
        -- intros [[= <- <- <-]|[]]. split; [done|constructor].
        -- intros [Hs H]. inversion H; subst. simpl in Hs.
           injection Hs as ->. by left.
      * split; [done|]. intros [Hs H]. inversion H; subst.
        simpl in Hs. congruence.
  - rewrite in_map_iff. split.
    + intros (n & [= <- <- <-] & Hn%In_downto).
      pose proof (span_length p hi s).
      split; [by rewrite take_drop|]. constructor.
      * apply (span_take p hi). lia.
      * rewrite length_take. lia.
      * intros h ->. pose proof (span_bound p h s). rewrite length_take. lia.
    + intros [-> H]. inversion H; subst.
      exists (length c). split.
      * by rewrite take_app_length, drop_app_length.
      * apply In_downto. split; [done|]. by apply span_prefix.
  - rewrite in_flat_map. split.
    + intros ([[c1 k1] s1] & H1 & H2). apply in_map_iff in H2 as ([[c2 k2] s2] & [= <- <- <-] & H2).
      apply IH1 in H1 as [-> M1]. apply IH2 in H2 as [-> M2].
      split; [by rewrite app_assoc|]. by constructor.
    + intros [-> H]. inversion H; subst.
      exists (c1, k1, c2 ++ rest). split.
      * apply IH1. split; [by rewrite app_assoc|done].
      * apply in_map_iff. exists (c2, k2, rest). split; [done|]. by apply IH2.
  - rewrite in_app_iff, !in_map_iff. split.
    + intros [([[c' k'] s'] & [= <- <- <-] & H)|([[c' k'] s'] & [= <- <- <-] & H)].
      * apply IH1 in H as [-> M]. split; [done|]. by apply MAltL.
      * apply IH2 in H as [-> M]. split; [done|]. by apply MAltR.
    + intros [-> H]. inversion H; subst.
      * left. exists (c, k0, rest). split; [done|]. by apply IH1.
      * right. exists (c, k0, rest). split; [done|]. by apply IH2.
  - rewrite in_map_iff. split.
    + intros ([[c' k'] s'] & [= <- <- <-] & H).
      apply IH in H as [-> M]. split; [done|]. by constructor.
    + intros [-> H]. inversion H; subst.
      exists (c, k0, rest). split; [done|]. by apply IH.
Qed.

(** A pattern that starts with [^] matches at the first position or
    nowhere. *)
Lemma searchFrom_anchored r s : searchFrom (Seq Bol r) false s = None.
Proof. induction s as [|x s IH]; simpl; [done|]. exact IH. Qed.

Lemma jsmatch_anchored r s :
  jsmatch s (Seq Bol r) =
    match matchAt (Seq Bol r) true s with
    | Some (c, k, _) => Some (Some c :: k)
    | None => None
    end.
Proof.
  unfold jsmatch. destruct s as [|x s]; simpl.
  - by destruct (matchAt _ _ _) as [[[??]?]|].
  - destruct (matchAt _ _ _) as [[[??]?]|]; [done|]. apply searchFrom_anchored.
Qed.

Lemma test_anchored r s :
  test (Seq Bol r) s = true <->
  exists c k rest, s = c ++ rest /\ Matches (Seq Bol r) true c rest k.
Proof.
  unfold test. rewrite bool_decide_eq_true, jsmatch_anchored. unfold matchAt.
  destruct (run (Seq Bol r) true s) as [|[[c k] rest] l] eqn:E; simpl.
  - split; [by intros [? [=]]|].
    intros (c & k & rest & H). apply run_spec in H. by rewrite E in H.
  - split; [|by eauto]. intros _. exists c, k, rest. apply run_spec.
    rewrite E. by left.
Qed.

(* ------------------------------------------------------------------ *)
(** ** Booking: the email grammar *)

Lemma length_pos_nonempty {A} (l : list A) : (1 <= length l)%nat <-> l <> [].
Proof. destruct l; simpl; split; (done || lia). Qed.

Lemma isValidEmail_spec (s : jsstring) : isValidEmail s = true <-> EmailForm s.
Proof.
  unfold isValidEmail, emailRe, Plus. rewrite test_anchored. split.
  - intros (c & k & rest & -> & H).
    repeat match goal with
    | H : Matches (Seq _ _) _ _ _ _ |- _ => inversion H; clear H; subst
    | H : Matches (Class _ _ _) _ _ _ _ |- _ => inversion H; clear H; subst
    | H : Matches (Lit _) _ _ _ _ |- _ => inversion H; clear H; subst
    | H : Matches Bol _ _ _ _ |- _ => inversion H; clear H; subst
    | H : Matches Eol _ _ _ _ |- _ => inversion H; clear H; subst
    end.
    simpl. rewrite !app_nil_r.
    match goal with
    | |- EmailForm (?l ++ _ :: ?d1 ++ _ :: ?d2) =>
        exists l, (d1 ++ "."%char :: d2)
    end.
    repeat split; try done.
    + by apply length_pos_nonempty.
    + unfold plain. rewrite forallb_app_true. by simpl.
    + eexists _, _. repeat split; by apply length_pos_nonempty.
  - intros (l & d & -> & Hl & Pl & Pd & d1 & d2 & -> & H1 & H2).
    unfold plain in Pd. apply forallb_app_true in Pd as [P1 P2].
    simpl in P2.
    exists (l ++ "@"%char :: d1 ++ "."%char :: d2), [], [].
    split; [by rewrite app_nil_r|].
    change (l ++ "@"%char :: d1 ++ "."%char :: d2)
      with ([] ++ l ++ ["@"%char] ++ d1 ++ ["."%char] ++ d2).
    rewrite <- (app_nil_r d2) at 1.
    change (@nil (option jsstring)) with (@nil (option jsstring) ++ [] ++ [] ++ [] ++ [] ++ [] ++ []).
    repeat (apply MSeq || apply MBol || apply MEol || apply MLit).
    all: apply MClass; try done; by apply length_pos_nonempty.
Qed.

Lemma bookingPreSave_eq (db : store) (this : object) :
  bookingPreSave db this =
    (this,
     if negb (emailAccepted this) then Throw InvalidEmailFormat
     else if EventExists db (prop this "eventId") then Ok tt
     else Throw EventDoesNotExist).
Proof.
  unfold bookingPreSave, emailAccepted, mbind, hook_bind, bind, getProp, throw, ret.
  destruct (prop this "email") eqn:E; simpl; try done.
  destruct (isValidEmail s); simpl; [|done].
  by destruct (EventExists db (prop this "eventId")).
Qed.

(** C5. The email check accepts exactly the strings of the grammar; a
    booking whose email is not such a string fails to save with the
    invalid-email error, and no other booking fails with that error. *)
Theorem booking_email_grammar :
  (forall s, isValidEmail s = true <-> EmailForm s) /\
  (forall db this,
     saveBooking db this = (db, Throw InvalidEmailFormat) <->
     ~ exists s, prop this "email" = VStr s /\ EmailForm s) /\
  isValidEmail (js "a@b.com") = true /\
  isValidEmail (js "a@b") = false /\
  isValidEmail (js "a b@c.com") = false /\
  isValidEmail (js "@c.com") = false.
Proof.
  split; [exact isValidEmail_spec|]. split; [|by vm_compute].
  intros db this. unfold saveBooking. rewrite bookingPreSave_eq.
  unfold emailAccepted. destruct (prop this "email") eqn:E; simpl;
    try (split; [by intros _ (s & [=] & _)|done]).
  destruct (isValidEmail s) eqn:V; simpl.
  - split.
    + by destruct (EventExists db _).
    + intros H. exfalso. apply H. exists s. split; [done|].
      by apply isValidEmail_spec.
  - split; [|done]. intros _ (s' & [= <-] & H%isValidEmail_spec). congruence.
Qed.

(* ------------------------------------------------------------------ *)
(** ** Booking: the referenced event *)

(** C6. A booking that refers to an event missing from the store is never
    written: the save fails and leaves the store as it was.  The failure is
    that of the existence check whenever the email check before it has
    passed.  When the event exists and the email is valid the hook succeeds
    and the booking is written. *)
Theorem booking_needs_event (db : store) (this : object) (id : ObjectId) :
  prop this "eventId" = VId id ->
  (events db !! id = None ->
     (exists e, saveBooking db this = (db, Throw e)) /\
     (emailAccepted this = true ->
        bookingPreSave db this = (this, Throw EventDoesNotExist) /\
        saveBooking db this = (db, Throw EventDoesNotExist))) /\
  (is_Some (events db !! id) -> emailAccepted this = true ->
     bookingPreSave db this = (this, Ok tt) /\
     saveBooking db this =
       ({| events := events db; bookings := bookings db ++ [this] |}, Ok tt)).
Proof.
  intros Hid. unfold saveBooking. rewrite bookingPreSave_eq, Hid. simpl. split.
  - intros Hnone. rewrite bool_decide_eq_false_2 by (rewrite Hnone; by intros [? [=]]).
    split.
    + destruct (emailAccepted this); simpl; eauto.
    + by intros ->.
  - intros Hsome ->. by rewrite bool_decide_eq_true_2.
Qed.

Lemma booking_needs_event_witness :
  saveBooking sampleStore (sampleBooking 2) = (sampleStore, Throw EventDoesNotExist) /\
  saveBooking sampleStore (sampleBooking 1) =
    ({| events := sampleEvents; bookings := [sampleBooking 1] |}, Ok tt).
Proof.
  split.
  - apply (booking_needs_event sampleStore (sampleBooking 2) 2); reflexivity.
  - apply (booking_needs_event sampleStore (sampleBooking 1) 1);
      [reflexivity | by eexists | reflexivity].
Defined.

(* ------------------------------------------------------------------ *)
(** ** Event: the checks come first *)

Section EventChecks.

Variable otherFormats : jsstring -> number.
Variable isModified : string -> bool.

Lemma forEach_checkField (fields : list string) (this : object) :
  forEach fields checkField this =
    (this,
     match find (fun f => blank (prop this f)) fields with
     | Some f => Throw (FieldRequired f)
     | None => Ok tt
     end).
Proof.
  induction fields as [|f fields IH]; simpl; [done|].
  unfold mbind, hook_bind, bind, checkField, getProp at 1.
  unfold mbind, hook_bind, bind, getProp. simpl.
  destruct (blank (prop this f)); simpl; [done|]. exact IH.
Qed.

Lemma eventPreSave_eq (this : object) :
  eventPreSave otherFormats isModified this =
    match find (fun f => blank (prop this f)) requiredStringFields with
    | Some f => (this, Throw (FieldRequired f))
    | None =>
        if noItems (prop this "agenda") then (this, Throw (ArrayRequired "agenda"))
        else if noItems (prop this "tags") then (this, Throw (ArrayRequired "tags"))
        else eventNormalize otherFormats isModified this
    end.
Proof.
  unfold eventPreSave.
  change (forEach requiredStringFields _) with (forEach requiredStringFields checkField).
  unfold mbind at 1, hook_bind at 1, bind at 1.
  rewrite forEach_checkField.
  destruct (find _ requiredStringFields); [done|].
  unfold mbind at 1, hook_bind at 1, bind at 1, getProp at 1.
  unfold mbind at 1, hook_bind at 1, bind at 1.
  destruct (noItems (prop this "agenda")); [done|]. simpl.
  unfold mbind at 1, hook_bind at 1, bind at 1, getProp at 1.
  unfold mbind at 1, hook_bind at 1, bind at 1.
  destruct (noItems (prop this "tags")); [done|]. simpl.
  reflexivity.
Qed.

Lemma find_first {A} (p : A -> bool) (l : list A) (i : nat) (x : A) :
  l !! i = Some x -> p x = true ->
  (forall y, y ∈ take i l -> p y = false) ->
  find p l = Some x.
Proof.
  revert i. induction l as [|a l IH]; intros [|i]; simpl; try done.
  - intros [= ->] -> _. done.
  - intros Hi Hx Hbefore. rewrite (Hbefore a) by (by left).
    apply (IH i); [done..|]. intros y Hy. apply Hbefore. by right.
Qed.

Lemma find_none {A} (p : A -> bool) (l : list A) :
  (forall y, y ∈ l -> p y = false) -> find p l = None.
Proof.
  induction l as [|a l IH]; simpl; [done|]. intros H.
  rewrite (H a) by (by left). apply IH. intros y Hy. apply H. by right.
Qed.

(** C4. The checks run in order, before any normalization.  The first
    required text field that is absent, not text or empty after trimming
    makes the hook fail with the error naming that field; with all eleven
    in place, an absent or empty agenda, then an absent or empty tags, makes
    it fail with the error naming the array.  In each case the document is
    exactly as it was: slug, date and time are not rewritten. *)
Theorem checks_come_first (this : object) :
  (forall v, blank v = true <-> forall s, v = VStr s -> trim s = []) /\
  (forall v, noItems v = true <-> forall items, v = VArr items -> items = []) /\
  (forall f, this !! f = None -> blank (prop this f) = true /\ noItems (prop this f) = true) /\
  (forall i f,
     requiredStringFields !! i = Some f ->
     blank (prop this f) = true ->
     (forall g, g ∈ take i requiredStringFields -> blank (prop this g) = false) ->
     eventPreSave otherFormats isModified this = (this, Throw (FieldRequired f))) /\
  ((forall g, g ∈ requiredStringFields -> blank (prop this g) = false) ->
     (noItems (prop this "agenda") = true ->
        eventPreSave otherFormats isModified this = (this, Throw (ArrayRequired "agenda"))) /\
     (noItems (prop this "agenda") = false -> noItems (prop this "tags") = true ->
        eventPreSave otherFormats isModified this = (this, Throw (ArrayRequired "tags")))).
Proof.
  split; [|split; [|split; [|split]]].
  - intros [ | | | |s| | ]; simpl; try (split; [by intros _ ? [=]|done]).
    rewrite Nat.eqb_eq. split.
    + intros H s' [= <-]. by apply nil_length_inv.
    + intros H. by rewrite (H s eq_refl).
  - intros [ | | | | |items| ]; simpl; try (split; [by intros _ ? [=]|done]).
    rewrite Nat.eqb_eq. split.
    + intros H s' [= <-]. by apply nil_length_inv.
    + intros H. by rewrite (H items eq_refl).
  - intros f Hf. unfold prop. by rewrite Hf.
  - intros i f Hi Hf Hbefore. rewrite eventPreSave_eq.
    by rewrite (find_first _ _ i f Hi Hf Hbefore).
  - intros Hall. rewrite eventPreSave_eq, (find_none _ _ Hall).
    split; [by intros ->|]. by intros -> ->.
Qed.

End EventChecks.

(* ------------------------------------------------------------------ *)
(** ** Event: the slug *)

Lemma collapseRuns_skip (s : jsstring) :
  collapseRuns true s = collapseRuns false (drop (span notSlugChar None s) s).
Proof.
  induction s as [|c s IH]; simpl; [done|].
  destruct (notSlugChar c) eqn:E; simpl; [done|]. by rewrite E.
Qed.

Lemma replace_runs (fuel : nat) : forall (s : jsstring) (bol : bool),
  (length s < fuel)%nat ->
  replaceFrom fuel nonSlugRunRe (js "-") bol s = collapseRuns false s.
Proof.
  induction fuel as [|fuel IH]; intros s bol Hlen; [lia|].
  destruct s as [|c s]; [done|].
  simpl in Hlen. cbn [replaceFrom]. unfold matchAt, nonSlugRunRe, Plus.
  cbn [run span fmap option_fmap option_map collapseRuns].
  destruct (notSlugChar c) eqn:E; cbn [downto Nat.ltb Nat.leb map head take drop].
  - rewrite IH.
    + by rewrite collapseRuns_skip.
    + rewrite length_drop. lia.
  - rewrite IH by lia. done.
Qed.

Lemma matchAt_edgeDash (bol : bool) (s : jsstring) :
  match s with
  | x :: s' =>
      if isDash x && (bol || isEmpty s')
      then exists k, matchAt edgeDashRe bol s = Some ([x], k, s')
      else matchAt edgeDashRe bol s = None
  | [] => matchAt edgeDashRe bol s = None
  end.
Proof.
  unfold matchAt, edgeDashRe, isDash. destruct s as [|x s]; simpl.
  - by destruct bol.
  - case_bool_decide as Hx; simpl.
    + subst x. destruct bol; simpl; [by eexists|].
      destruct s; simpl; [by eexists|done].
    + destruct bol; simpl; [by rewrite bool_decide_eq_false_2|done].
Qed.

Lemma replace_final_dash (fuel : nat) : forall s : jsstring,
  (length s < fuel)%nat ->
  replaceFrom fuel edgeDashRe [] false s = dropFinalDash s.
Proof.
  induction fuel as [|fuel IH]; intros s Hlen; [lia|].
  destruct s as [|x s]; [done|].
  simpl in Hlen. cbn [replaceFrom dropFinalDash].
  pose proof (matchAt_edgeDash false (x :: s)) as M. cbn [orb] in M.
  destruct (isDash x && isEmpty s) eqn:E.
  - destruct M as [k ->]. apply andb_prop in E as [_ Hs].
    destruct s; [|done]. simpl. destruct fuel; [lia|done].
  - rewrite M, IH by lia. done.
Qed.

Lemma replace_edge_dashes (s : jsstring) :
  replaceAll s edgeDashRe [] = dropFinalDash (dropFirstDash s).
Proof.
  unfold replaceAll. destruct s as [|x s]; [done|].
  assert (length s < length (x :: s))%nat as Hlen by (simpl; lia).
  revert Hlen. generalize (length (x :: s)). intros n Hlen.
  cbn [replaceFrom dropFirstDash].
  pose proof (matchAt_edgeDash true (x :: s)) as M. cbn [orb] in M.
  rewrite andb_true_r in M. destruct (isDash x) eqn:E.
  - destruct M as [k ->]. simpl. by apply replace_final_dash.
  - rewrite M, replace_final_dash by done. simpl. by rewrite E.
Qed.

Lemma dropFinalDash_snoc (s : jsstring) (x : ascii) :
  dropFinalDash (s ++ [x]) = if isDash x then s else s ++ [x].
Proof.
  induction s as [|y s IH]; simpl.
  - rewrite andb_true_r. by destruct (isDash x).
  - destruct (s ++ [x]) eqn:E; [by destruct s|]. rewrite IH.
    simpl. rewrite andb_false_r. by destruct (isDash x).
Qed.

Lemma noDoubleDash_tail (x : ascii) (s : jsstring) :
  noDoubleDash (x :: s) = true -> noDoubleDash s = true.
Proof. simpl. by intros [_ ?]%andb_prop. Qed.

Lemma noDoubleDash_end (s : jsstring) (x y : ascii) :
  noDoubleDash (s ++ [x; y]) = true -> isDash x && isDash y = false.
Proof.
  induction s as [|z s IH].
  - simpl. rewrite andb_true_r. by intros ->%negb_true_iff.
  - intros H. apply IH. by apply noDoubleDash_tail in H.
Qed.

Lemma strip_leading (s : jsstring) :
  noDoubleDash s = true -> dropWhile isDash s = dropFirstDash s.
Proof.
  destruct s as [|x [|y s]]; simpl; [done| |].
  - by destruct (isDash x).
  - destruct (isDash x), (isDash y); simpl; done.
Qed.

Lemma strip_trailing (s : jsstring) :
  noDoubleDash s = true -> rev (dropWhile isDash (rev s)) = dropFinalDash s.
Proof.
  destruct s as [|x s _] using rev_ind; [done|].
  intros H. rewrite dropFinalDash_snoc, rev_app_distr. simpl.
  destruct (isDash x) eqn:Ex.
  - destruct s as [|y s _] using rev_ind; [done|].
    rewrite <- app_assoc in H. simpl in H. apply noDoubleDash_end in H.
    rewrite Ex, andb_true_r in H.
    rewrite rev_app_distr. simpl. rewrite H. simpl. by rewrite rev_involutive.
  - simpl. by rewrite rev_involutive.
Qed.

Lemma noSlugChar_dash (c : ascii) : isDash c = true -> notSlugChar c = true.
Proof. unfold isDash. by intros ->%bool_decide_eq_true. Qed.

Lemma collapseRuns_shape (s : jsstring) :
  noDoubleDash (collapseRuns false s) = true /\
  noDoubleDash (collapseRuns true s) = true /\
  (forall x rest, collapseRuns true s = x :: rest -> isDash x = false).
Proof.
  induction s as [|c s (IH1 & IH2 & IH3)]; [done|].
  cbn [collapseRuns]. destruct (notSlugChar c) eqn:E.
  - split; [|done]. cbn [noDoubleDash]. rewrite IH2, andb_true_r.
    destruct (collapseRuns true s) as [|y t] eqn:Et; [done|].
    by rewrite (IH3 y t).
  - assert (isDash c = false) as Hc.
    { destruct (isDash c) eqn:D; [|done]. apply noSlugChar_dash in D. congruence. }
    split; [|split].
    + cbn [noDoubleDash]. rewrite Hc, IH1. by destruct (collapseRuns false s).
    + cbn [noDoubleDash]. rewrite Hc, IH1. by destruct (collapseRuns false s).
    + by intros x rest [= <- _].
Qed.

Lemma noDoubleDash_dropFirst (s : jsstring) :
  noDoubleDash s = true -> noDoubleDash (dropFirstDash s) = true.
Proof.
  destruct s as [|x s]; [done|]. intros H. simpl.
  destruct (isDash x); [by apply noDoubleDash_tail in H|done].
Qed.

(** The code and the specification's wording derive the same slug. *)
Lemma slugify_refines (title : jsstring) : slugify title = slugifySpec title.
Proof.
  unfold slugify, slugifySpec, stripDashes.
  set (t := trim (toLowerCase title)).
  rewrite replace_edge_dashes. unfold replaceAll at 1.
  rewrite replace_runs by lia.
  destruct (collapseRuns_shape t) as (H & _ & _).
  rewrite (strip_leading _ H), strip_trailing; [done|].
  by apply noDoubleDash_dropFirst.
Qed.

Lemma prop_insert (this : object) (name name' : string) (v : value) :
  prop (<[name := v]> this) name' = if decide (name = name') then v else prop this name'.
Proof. unfold prop. rewrite lookup_insert. by case_decide. Qed.

Lemma not_blank_string (v : value) :
  blank v = false -> exists s, v = VStr s /\ trim s <> [].
Proof.
  destruct v; simpl; try done. intros H%Nat.eqb_neq. exists s. split; [done|].
  intros E. by rewrite E in H.
Qed.

(** The date and time statements fail or set [date] and [time]; they leave
    every other property alone. *)
Ltac date_time_stage :=
  match goal with
  | |- context [prop ?t "date"] =>
      destruct (prop t "date") as [ | | | |?d| | ]; try by intros [= <- _]
  end;
  match goal with
  | |- context [normalizeDateToISO ?f ?d] =>
      destruct (normalizeDateToISO f d) as [?iso|?e]; [|by intros [= <- _]]
  end;
  simpl;
  match goal with
  | |- context [prop ?t "time"] =>
      destruct (prop t "time") as [ | | | |?t0| | ];
      try (intros [= <- _]; by rewrite prop_insert)
  end;
  match goal with
  | |- context [normalizeTimeTo24 ?t] =>
      destruct (normalizeTimeTo24 t) as [?hhmm|?e]; intros [= <- _];
      by rewrite ?prop_insert
  end.

Section EventSlug.

Variable otherFormats : jsstring -> number.
Variable isModified : string -> bool.

Lemma eventNormalize_slug (this this' : object) (r : result unit) (title : jsstring) :
  prop this "title" = VStr title ->
  eventNormalize otherFormats isModified this = (this', r) ->
  prop this' "slug" =
    if isModified "title" || negb (toBoolean (prop this "slug"))
    then VStr (slugify title) else prop this "slug".
Proof.
  intros Ht. unfold eventNormalize, mbind, hook_bind, bind, getProp.
  destruct (isModified "title" || negb (toBoolean (prop this "slug"))).
  - rewrite Ht. unfold asString, setProp, lift, ret. simpl.
    set (this1 := <["slug"%string := VStr (slugify title)]> this).
    assert (prop this1 "slug" = VStr (slugify title)) as <-
      by (subst this1; by rewrite prop_insert).
    clearbody this1. date_time_stage.
  - unfold asString, setProp, lift, ret. simpl. date_time_stage.
Qed.

(** C3. On a save that passes the checks, the slug is rewritten to the
    slug derived from the title if and only if the title was modified or no
    slug is set (the property is absent, or holds a falsy value such as the
    empty string), and is otherwise left as it was.  The derivation is the one
    the specification words: lowercase, trim, every maximal run of
    characters outside [a-z0-9] replaced by one dash, dashes at both ends
    stripped. *)
Theorem slug_rule (this this' : object) (r : result unit) :
  (forall g, g ∈ requiredStringFields -> blank (prop this g) = false) ->
  noItems (prop this "agenda") = false ->
  noItems (prop this "tags") = false ->
  eventPreSave otherFormats isModified this = (this', r) ->
  (exists title,
     prop this "title" = VStr title /\
     prop this' "slug" =
       if isModified "title" || negb (toBoolean (prop this "slug"))
       then VStr (slugify title) else prop this "slug") /\
  (forall title, slugify title = slugifySpec title) /\
  slugify (js "Hello, World!") = js "hello-world" /\
  slugify (js "  Foo_Bar--Baz  ") = js "foo-bar-baz".
Proof.
  intros Hall Ha Ht. rewrite eventPreSave_eq, (find_none _ _ Hall), Ha, Ht.
  intros Hrun. split; [|split; [exact slugify_refines|by vm_compute]].
  destruct (not_blank_string (prop this "title")) as (title & Htitle & _).
  { apply Hall. by left. }
  exists title. split; [done|]. by apply (eventNormalize_slug this this' r).
Qed.

End EventSlug.

Lemma sampleEvent_checks :
  (forall g, g ∈ requiredStringFields -> blank (prop sampleEvent g) = false) /\
  noItems (prop sampleEvent "agenda") = false /\
  noItems (prop sampleEvent "tags") = false.
Proof.
  split; [|by vm_compute]. apply Forall_forall.
  unfold requiredStringFields. repeat constructor.
Qed.

Lemma slug_rule_witness :
  prop (eventPreSave noOtherFormats (fun _ => false) sampleEvent).1 "slug"
  = VStr (js "hello-world").
Proof.
  destruct (eventPreSave noOtherFormats (fun _ => false) sampleEvent)
    as [this' r] eqn:E.
  destruct sampleEvent_checks as (H1 & H2 & H3).
  destruct (slug_rule noOtherFormats (fun _ => false) sampleEvent this' r H1 H2 H3 E)
    as ((title & Ht & Hs) & _).
  simpl. rewrite Hs. vm_compute in Ht. injection Ht as <-. by vm_compute.
Defined.

(* ------------------------------------------------------------------ *)
(** ** Event: the time of day *)

(** C1. The cases the specification lists, evaluated on the code.  The first
    five come out as stated.  The last does not: ["13:30 am"] matches the
    12-hour pattern with hour 13, neither adjustment applies, and the range
    check, which sees the hour only after the adjustments, lets it through as
    ["13:30"].  The hour 0 is let through the same way. *)
Theorem time_examples :
  normalizeTimeTo24 (js "9:30 AM") = Ok (js "09:30") /\
  normalizeTimeTo24 (js "9:30pm") = Ok (js "21:30") /\
  normalizeTimeTo24 (js "12 am") = Ok (js "00:00") /\
  normalizeTimeTo24 (js "12 pm") = Ok (js "12:00") /\
  normalizeTimeTo24 (js "25:00") = Throw (InvalidTimeFormat (js "25:00")) /\
  normalizeTimeTo24 (js "13:30 am") = Ok (js "13:30") /\
  normalizeTimeTo24 (js "0 am") = Ok (js "00:00").
Proof. repeat split; by vm_compute. Qed.

Lemma guarded_canonical (hour minute : number) (out : jsstring) :
  (if num_ge hour 0 && num_lt hour 24 && num_ge minute 0 && num_lt minute 60
   then Some (two hour ++ js ":" ++ two minute) else None) = Some out ->
  exists h m, 0 <= h < 24 /\ 0 <= m < 60 /\ out = hhmm h m.
Proof.
  destruct hour as [h|], minute as [m|]; simpl; rewrite ?andb_false_r; try done.
  destruct (_ && _) eqn:G; [|done]. intros [= <-]. exists h, m.
  repeat split; try lia.
Qed.

(** Every hour from 13 to 23 followed by "am" is accepted unchanged, and
    hour 0 is accepted with either period. *)
Lemma twelve_hour_range_unchecked :
  forallb (fun h => match normalizeTimeTo24 (decimal h ++ js " am") with
                    | Ok out => bool_decide (out = hhmm h 0)
                    | Throw _ => false
                    end)
          (seqZ 13 11) = true /\
  normalizeTimeTo24 (js "0:30 pm") = Ok (js "12:30").
Proof. split; by vm_compute. Qed.

(** Whatever the normalizer returns is canonical. *)
Lemma normalizeTimeTo24_canonical (input out : jsstring) :
  normalizeTimeTo24 input = Ok out ->
  exists h m, 0 <= h < 24 /\ 0 <= m < 60 /\ out = hhmm h m.
Proof.
  unfold normalizeTimeTo24. cbv zeta.
  match goal with
  | |- match ?d with _ => _ end = _ -> _ => destruct d as [o|] eqn:E1
  end.
  - intros [= <-]. destruct (jsmatch _ hhmmRe); [|done].
    by apply guarded_canonical in E1.
  - match goal with
    | |- match ?d with _ => _ end = _ -> _ => destruct d as [o|] eqn:E2
    end; [|done].
    intros [= <-]. destruct (jsmatch _ ampmRe); [|done].
    by apply guarded_canonical in E2.
Qed.

Lemma canonical_times_fixed :
  forallb (fun h => forallb (canonicalFixed h) (seqZ 0 60)) (seqZ 0 24) = true.
Proof. by vm_compute. Qed.

(** A canonical time normalizes to itself. *)
Lemma normalizeTimeTo24_fixed (h m : Z) :
  0 <= h < 24 -> 0 <= m < 60 -> normalizeTimeTo24 (hhmm h m) = Ok (hhmm h m).
Proof.
  intros Hh Hm. pose proof canonical_times_fixed as H.
  rewrite forallb_forall in H.
  specialize (H h). rewrite <- list_elem_of_In, elem_of_seqZ in H.
  specialize (H ltac:(lia)). rewrite forallb_forall in H.
  specialize (H m). rewrite <- list_elem_of_In, elem_of_seqZ in H.
  specialize (H ltac:(lia)). unfold canonicalFixed in H.
  destruct (normalizeTimeTo24 (hhmm h m)); [|done].
  by apply bool_decide_eq_true in H as ->.
Qed.

Lemma normalizeTimeTo24_idempotent (input out : jsstring) :
  normalizeTimeTo24 input = Ok out -> normalizeTimeTo24 out = Ok out.
Proof.
  intros (h & m & Hh & Hm & ->)%normalizeTimeTo24_canonical.
  by apply normalizeTimeTo24_fixed.
Qed.

Lemma checks_come_first_witness :
  let this := delete "venue"%string sampleEvent in
  eventPreSave noOtherFormats (fun _ => false) this = (this, Throw (FieldRequired "venue")).
Proof.
  intros this.
  destruct (checks_come_first noOtherFormats (fun _ => false) this)
    as (_ & _ & _ & H & _).
  apply (H 4%nat "venue"%string); [reflexivity|by vm_compute|].
  intros g Hg. apply list_elem_of_In in Hg. simpl in Hg.
  destruct Hg as [<-|[<-|[<-|[<-|[]]]]]; by vm_compute.
Defined.

(* ------------------------------------------------------------------ *)
(** ** The connection cache under any schedule *)

Lemma takeCaller_split {A} (c : caller) (l rest : list (caller * A)) (a : A) :
  takeCaller c l = Some (a, rest) ->
  exists l1 l2, l = l1 ++ (c, a) :: l2 /\ rest = l1 ++ l2.
Proof.
  revert rest. induction l as [|[c' a'] l IH]; intros rest; simpl; [done|].
  case_bool_decide as Hc.
  - intros [= <- <-]. subst c'. by exists [], l.
  - destruct (takeCaller c l) as [[x r]|]; simpl; [|done].
    intros [= <- <-]. destruct (IH r eq_refl) as (l1 & l2 & -> & ->).
    by exists ((c', a') :: l1), l2.
Qed.

Lemma owned_app l1 l2 : owned (l1 ++ l2) = owned l1 ++ owned l2.
Proof. apply omap_app. Qed.

Lemma Inv_initial : Inv initialSystem.
Proof.
  split; simpl; try done.
  - intros q Hq. lia.
  - intros c p site H. by apply elem_of_nil in H.
  - intros c m H. by apply elem_of_nil in H.
Qed.

Lemma Inv_call (env : option jsstring) (c : caller) (s : system) :
  Inv s -> Inv (step env (Call c) s).
Proof.
  intros I. unfold step.
  destruct (configuredUri env) as [uri|] eqn:Hu.
  2:{ rewrite (connectToDatabase_unconfigured _ _ Hu). destruct I as [A B C D O L R].
      split; simpl; try done.
      intros c' m [H|H%list_elem_of_singleton]%elem_of_app; [by eauto|done]. }
  destruct (conn (cache (sworld s))) as [m|] eqn:Hconn.
  { rewrite (connectToDatabase_live _ _ _ _ Hu Hconn). destruct I as [A B C D O L R].
    split; simpl; try done.
    intros c' m' [H|H%list_elem_of_singleton]%elem_of_app; [by eauto|congruence]. }
  destruct (promise (cache (sworld s))) as [p|] eqn:Hslot.
  - rewrite (connectToDatabase_join _ _ _ _ Hu Hconn Hslot). destruct I as [A B C D O L R].
    split; simpl; try done.
    + intros c' p' site [H|H%list_elem_of_singleton]%elem_of_app; [by eauto|].
      injection H as -> -> ->. specialize (A p Hslot). lia.
    + rewrite owned_app. simpl. by rewrite app_nil_r.
  - rewrite (connectToDatabase_fresh _ _ _ Hu Hconn Hslot). destruct I as [A B C D O L R].
    split; simpl.
    + intros p [= <-]. rewrite length_app. simpl. lia.
    + intros q Hq Hne. rewrite length_app in Hq. simpl in Hq.
      assert (q < length (promises (sworld s)))%nat as Hlt.
      { destruct (decide (q = length (promises (sworld s)))); [congruence|lia]. }
      destruct (B q Hlt) as [e He]; [by rewrite Hslot|].
      exists e. simpl. by rewrite lookup_app_l.
    + done.
    + intros c' p' site [H|H%list_elem_of_singleton]%elem_of_app.
      * rewrite length_app. specialize (D _ _ _ H). lia.
      * injection H as -> -> ->. rewrite length_app. simpl. lia.
    + rewrite owned_app. simpl.
      destruct (owned (suspended s)) as [|p [|]]; try done.
      by rewrite Hslot in O.
    + rewrite !length_app. simpl. lia.
    + intros c' m H. specialize (R c' m H). congruence.
Qed.

Lemma Inv_settle (env : option jsstring) (p : promiseId) (r : result Mongoose)
    (s : system) :
  Inv s -> Inv (step env (Settle p r) s).
Proof.
  intros I. unfold step, settle.
  destruct (promises (sworld s) !! p) as [[x|]|] eqn:Hp; try by destruct I.
  destruct I as [A B C D O L R].
  split; simpl; rewrite ?length_insert; try done.
  - intros q Hq Hne. destruct (B q Hq Hne) as [e He]. exists e. simpl.
    rewrite list_lookup_insert_ne; [done|]. congruence.
  - intros m Hm. destruct (C m Hm) as (p' & Hs & Hl). exists p'. split; [done|].
    rewrite list_lookup_insert_ne; [done|]. congruence.
Qed.

Lemma Inv_resume (env : option jsstring) (c : caller) (s : system) :
  Inv s -> Inv (step env (Resume c) s).
Proof.
  intros I. pose proof I as [A B C D O L R]. unfold step.
  destruct (takeCaller c (suspended s)) as [[[p site] rest]|] eqn:T; [|done].
  destruct (promises (sworld s) !! p) as [[settled|]|] eqn:Hp; try done.
  apply takeCaller_split in T as (l1 & l2 & Hs & ->).
  assert (forall c' p' site', (c', (p', site')) ∈ l1 ++ l2 ->
            (c', (p', site')) ∈ suspended s) as Hsub.
  { intros c' p' site'. rewrite Hs, !elem_of_app, elem_of_cons. tauto. }
  assert (match owned (l1 ++ l2) with
          | [] => True
          | [p] => promise (cache (sworld s)) = Some p
          | _ => False
          end) as O'.
  { rewrite Hs, owned_app in O. simpl in O. rewrite owned_app.
    destruct site; simpl in O; [done|].
    destruct (owned l1) as [|? [|]], (owned l2) as [|? [|]]; simpl in *; done. }
  assert (site = Own -> promise (cache (sworld s)) = Some p /\ owned (l1 ++ l2) = [])
    as Hown.
  { intros ->. rewrite Hs, owned_app in O. simpl in O. rewrite owned_app.
    destruct (owned l1) as [|? [|]], (owned l2) as [|? [|]]; simpl in *; done. }
  assert (p < length (promises (sworld s)))%nat as Hlt by (by eapply lookup_lt_Some).
  destruct settled as [m|e].
  - (* resolved: the handle goes into the cache *)
    assert (promise (cache (sworld s)) = Some p) as Hslot.
    { destruct (decide (promise (cache (sworld s)) = Some p)) as [|Hne]; [done|].
      destruct (B p Hlt Hne) as [e He]. congruence. }
    assert (connectToDatabase_resume site (Ok m) (sworld s) = (setConn m (sworld s), Ok m)) as ->
      by (by destruct site).
    split; simpl; try done.
    + intros m' [= <-]. by exists p.
    + by eauto.
    + intros c' m' [H|H%list_elem_of_singleton]%elem_of_app; [|congruence].
      destruct (C m' (R c' m' H)) as (p' & Hs' & Hl'). congruence.
  - destruct site; simpl.
    + (* a joining call: the error is passed on *)
      split; simpl; try done; [by eauto|].
      intros c' m [H|H%list_elem_of_singleton]%elem_of_app; [by eauto|done].
    + (* the call that started the attempt: the slot is cleared *)
      destruct (Hown eq_refl) as [Hslot Hnone].
      assert (conn (cache (sworld s)) = None) as Hconn.
      { destruct (conn (cache (sworld s))) as [m|] eqn:E; [|done].
        destruct (C m eq_refl) as (p' & Hs' & Hl'). congruence. }
      split; simpl; try done.
      * intros q Hq _. destruct (decide (q = p)) as [->|Hne]; [by exists e|].
        apply B; [done|congruence].
      * by rewrite Hconn.
      * by eauto.
      * by rewrite Hnone.
      * intros c' m [H|H%list_elem_of_singleton]%elem_of_app; [|done].
        specialize (R c' m H). congruence.
Qed.

Lemma Inv_step (env : option jsstring) (e : event) (s : system) :
  Inv s -> Inv (step env e s).
Proof.
  destruct e; [apply Inv_call|apply Inv_settle|apply Inv_resume].
Qed.

Lemma runEvents_snoc env tr e s :
  runEvents env (tr ++ [e]) s = step env e (runEvents env tr s).
Proof. unfold runEvents. by rewrite fold_left_app. Qed.

Lemma Inv_reachable (env : option jsstring) (tr : list event) :
  Inv (runEvents env tr initialSystem).
Proof.
  induction tr as [|e tr IH] using rev_ind; [apply Inv_initial|].
  rewrite runEvents_snoc. by apply Inv_step.
Qed.

(** C8. When a connection attempt fails, the call that started it clears the
    in-flight slot and rethrows the error, and no handle is stored; a call
    that had joined the attempt rethrows it too.  In every reachable state
    this leaves both slots empty, so the next call opens a fresh attempt: one
    more [mongoose.connect], recorded in the slot. *)
Theorem failed_attempt_clears_slot (env : option jsstring) (uri : jsstring)
    (tr : list event) (c : caller) (p : promiseId) (e : error)
    (rest : list (caller * (promiseId * awaitSite))) :
  configuredUri env = Some uri ->
  let s := runEvents env tr initialSystem in
  takeCaller c (suspended s) = Some ((p, Own), rest) ->
  promises (sworld s) !! p = Some (Some (Throw e)) ->
  let s' := step env (Resume c) s in
  (forall w, connectToDatabase_resume Own (Throw e) w = (clearPromise w, Throw e) /\
             connectToDatabase_resume InFlight (Throw e) w = (w, Throw e) /\
             conn (cache (clearPromise w)) = conn (cache w)) /\
  returned s' = returned s ++ [(c, Throw e)] /\
  cache (sworld s') = emptyCache /\
  connectLog (sworld s') = connectLog (sworld s) /\
  forall c',
    let s'' := step env (Call c') s' in
    connectLog (sworld s'') = connectLog (sworld s) ++ [uri] /\
    cache (sworld s'') =
      {| conn := None; promise := Some (length (promises (sworld s))) |} /\
    suspended s'' = rest ++ [(c', (length (promises (sworld s)), Own))].
Proof.
  intros Hu s T Hp s'.
  pose proof (Inv_reachable env tr) as I. fold s in I.
  assert (promise (cache (sworld s)) = Some p) as Hslot.
  { pose proof (inv_owner s I) as O.
    apply takeCaller_split in T as (l1 & l2 & Hs & _).
    rewrite Hs, owned_app in O. simpl in O.
    destruct (owned l1) as [|? [|]], (owned l2) as [|? [|]]; simpl in *; done. }
  assert (conn (cache (sworld s)) = None) as Hconn.
  { destruct (conn (cache (sworld s))) as [m|] eqn:E; [|done].
    destruct (inv_conn s I m E) as (p' & Hs' & Hl'). congruence. }
  assert (s' = {| sworld := clearPromise (sworld s); suspended := rest;
                  returned := returned s ++ [(c, Throw e)] |}) as ->.
  { subst s'. unfold step. by rewrite T, Hp. }
  split; [done|]. simpl. repeat split; try done.
  - unfold emptyCache. by rewrite Hconn.
  - by rewrite (connectToDatabase_fresh env (clearPromise (sworld s)) uri).
  - by rewrite (connectToDatabase_fresh env (clearPromise (sworld s)) uri).
  - by rewrite (connectToDatabase_fresh env (clearPromise (sworld s)) uri).
Qed.

Lemma failed_attempt_clears_slot_witness :
  let env := Some sampleUri in
  let down := ConnectFailure "server selection timed out" in
  let s := runEvents env [Call 1; Call 2; Settle 0 (Throw down)]%nat initialSystem in
  let s' := step env (Resume 1%nat) s in
  returned s' = [(1%nat, Throw down)] /\
  cache (sworld s') = emptyCache /\
  connectLog (sworld (step env (Call 3%nat) s')) = [sampleUri; sampleUri].
Proof.
  intros env down s s'.
  destruct (failed_attempt_clears_slot env sampleUri
              [Call 1; Call 2; Settle 0 (Throw down)]%nat 1%nat 0%nat down
              [(2%nat, (0%nat, InFlight))] eq_refl eq_refl eq_refl)
    as (_ & Hr & Hc & _ & Hnext).
  split; [exact Hr|]. split; [exact Hc|].
  destruct (Hnext 3%nat) as (Hl & _). exact Hl.
Defined.

(* ------------------------------------------------------------------ *)
(** ** Runs in which no attempt fails *)

Lemma callers_snoc tr e :
  callers (tr ++ [e]) = callers tr ++ match e with Call c => [c] | _ => [] end.
Proof. unfold callers. rewrite omap_app. by destruct e. Qed.

Lemma Quiet_step (env : option jsstring) (uri : jsstring) (tr : list event)
    (e : event) (s : system) :
  configuredUri env = Some uri -> noReject e = true ->
  Inv s -> Quiet uri tr s -> Quiet uri (tr ++ [e]) (step env e s).
Proof.
  intros Hu He I [P R C S L].
  destruct e as [c|p r|c]; unfold step.
  - (* a call *)
    destruct (conn (cache (sworld s))) as [m|] eqn:Hconn;
      [|destruct (promise (cache (sworld s))) as [p|] eqn:Hslot].
    + rewrite (connectToDatabase_live _ _ _ _ Hu Hconn). split; rewrite ?callers_snoc, ?app_nil_r; simpl; try done.
      * intros c' r [H|H%list_elem_of_singleton]%elem_of_app; [by eauto|].
        injection H as -> ->. by eexists.
      * intros c' [H|H%list_elem_of_singleton]%elem_of_app.
        -- destruct (C c' H); [by left|]. right. rewrite fmap_app, elem_of_app. by left.
        -- subst c'. right. rewrite fmap_app, elem_of_app. right. by left.
      * intros _. destruct (inv_conn s I m Hconn) as (p & _ & Hp%lookup_lt_Some). lia.
    + rewrite (connectToDatabase_join _ _ _ _ Hu Hconn Hslot). split; rewrite ?callers_snoc, ?app_nil_r; simpl; try done.
      * intros c' [H|H%list_elem_of_singleton]%elem_of_app.
        -- destruct (C c' H); [|by right]. left. rewrite fmap_app, elem_of_app. by left.
        -- subst c'. left. rewrite fmap_app, elem_of_app. right. by left.
      * intros _. pose proof (inv_slot s I p Hslot). lia.
    + rewrite (connectToDatabase_fresh _ _ _ Hu Hconn Hslot). split; rewrite ?callers_snoc, ?app_nil_r; simpl; try done.
      * intros q e. rewrite lookup_app. destruct (promises (sworld s) !! q) eqn:E.
        -- intros [= ->]. by apply (P q e).
        -- by destruct (q - length (promises (sworld s)))%nat as [|[|]].
      * intros c' [H|H%list_elem_of_singleton]%elem_of_app.
        -- destruct (C c' H); [|by right]. left. rewrite fmap_app, elem_of_app. by left.
        -- subst c'. left. rewrite fmap_app, elem_of_app. right. by left.
      * intros _. rewrite length_app. simpl. lia.
      * apply Forall_app. split; [done|]. by repeat constructor.
  - (* a promise settles, not with an error *)
    destruct r as [m|e]; [|done].
    split; rewrite ?callers_snoc, ?app_nil_r; simpl; try done.
    + intros q e. unfold settle. destruct (promises (sworld s) !! p) as [[x|]|] eqn:Hp;
        try apply P. simpl.
      destruct (decide (p = q)) as [->|Hne].
      * rewrite list_lookup_insert_eq; [done|]. by eapply lookup_lt_Some.
      * rewrite list_lookup_insert_ne by done. apply P.
    + intros H. specialize (S H). unfold settle.
      destruct (promises (sworld s) !! p) as [[x|]|]; simpl; try done.
      by rewrite length_insert.
    + unfold settle. by destruct (promises (sworld s) !! p) as [[x|]|].
  - (* a suspended call resumes *)
    destruct (takeCaller c (suspended s)) as [[[p site] rest]|] eqn:T;
      [|by split; rewrite ?callers_snoc, ?app_nil_r].
    destruct (promises (sworld s) !! p) as [[[m|e]|]|] eqn:Hp;
      try by split; rewrite ?callers_snoc, ?app_nil_r.
    2:{ by destruct (P p e). }
    assert (connectToDatabase_resume site (Ok m) (sworld s) = (setConn m (sworld s), Ok m)) as ->
      by (by destruct site).
    apply takeCaller_split in T as (l1 & l2 & Hs & ->).
    split; rewrite ?callers_snoc, ?app_nil_r; simpl; try done.
    + intros c' r [H|H%list_elem_of_singleton]%elem_of_app; [by eauto|].
      injection H as -> ->. by eexists.
    + intros c' H. destruct (C c' H) as [Hc|Hc].
      * rewrite Hs, fmap_app, elem_of_app, fmap_cons, elem_of_cons in Hc.
        rewrite !fmap_app, !elem_of_app. simpl in Hc.
        destruct Hc as [Hc|[->|Hc]]; [by left; left| |by left; right].
        right. right. by left.
      * right. rewrite fmap_app, elem_of_app. by left.
Qed.

Lemma Quiet_reachable (env : option jsstring) (uri : jsstring) (tr : list event) :
  configuredUri env = Some uri -> forallb noReject tr = true ->
  Quiet uri tr (runEvents env tr initialSystem).
Proof.
  intros Hu. induction tr as [|e tr IH] using rev_ind; intros Hq.
  - split; simpl; try done.
    + intros c r H. by apply elem_of_nil in H.
    + intros c H. by apply elem_of_nil in H.
  - apply forallb_app_true in Hq as [Htr He]. simpl in He.
    rewrite andb_true_r in He. rewrite runEvents_snoc.
    apply (Quiet_step env uri); [done..|apply Inv_reachable|by apply IH].
Qed.

(** With no rejected promise there is at most one promise. *)
Lemma single_attempt (uri : jsstring) (tr : list event) (s : system) :
  Inv s -> Quiet uri tr s -> (length (promises (sworld s)) <= 1)%nat.
Proof.
  intros I Q. destruct (promises (sworld s)) as [|x l] eqn:E; simpl; [lia|].
  destruct (decide (promise (cache (sworld s)) = Some 0%nat)) as [H0|H0].
  - pose proof (inv_slot s I _ H0) as H. rewrite E in H. simpl in H. lia.
  - destruct (inv_old s I 0%nat) as [e He]; [rewrite E; simpl; lia|done|].
    by destruct (quiet_promises uri tr s Q 0%nat e).
Qed.

(* ------------------------------------------------------------------ *)
(** ** Event: the date

    The calendar functions invert each other, the decimal fields are read
    back as written, and so [Date.parse] reads [toISOString] back. *)

Lemma DaysInYear_step (y : Z) : DayFromYear (y + 1) = DayFromYear y + DaysInYear y.
Proof.
  unfold DayFromYear, DaysInYear.
  destruct (Z.eqb_spec (y mod 4) 0), (Z.eqb_spec (y mod 100) 0), (Z.eqb_spec (y mod 400) 0);
    simpl; Z.div_mod_to_equations; lia.
Qed.

Lemma YearFromTime_spec (t : Z) :
  DayFromYear (YearFromTime t) <= Day t < DayFromYear (YearFromTime t + 1).
Proof.
  unfold YearFromTime. set (d := Day t). clearbody d.
  set (y := 1970 + 400 * d / 146097).
  assert (DayFromYear (y - 1) <= d < DayFromYear (y + 2)) as Hest.
  { unfold DayFromYear. subst y. Z.div_mod_to_equations. lia. }
  destruct (Z.ltb_spec d (DayFromYear y)).
  - replace (y - 1 + 1) with y by lia. lia.
  - destruct (Z.leb_spec (DayFromYear (y + 1)) d).
    + replace (y + 1 + 1) with (y + 2) by lia. lia.
    + lia.
Qed.

Lemma leapDays_range (y : Z) : leapDays y = 0 \/ leapDays y = 1.
Proof.
  unfold leapDays, DaysInYear.
  destruct (y mod 4 =? 0), (y mod 100 =? 0), (y mod 400 =? 0); simpl; lia.
Qed.

Lemma DayWithinYear_range (t : Z) :
  0 <= DayWithinYear t < 365 + InLeapYear t.
Proof.
  unfold DayWithinYear, InLeapYear, leapDays.
  pose proof (YearFromTime_spec t) as H.
  rewrite DaysInYear_step in H. lia.
Qed.

Lemma calendar_roundtrip (t : Z) :
  0 <= MonthFromTime t <= 11 /\
  1 <= DateFromTime t <= DaysInMonth (YearFromTime t) (MonthFromTime t) /\
  MakeDay (YearFromTime t) (MonthFromTime t) (DateFromTime t) = Day t.
Proof.
  pose proof (DayWithinYear_range t) as Hd.
  unfold MakeDay, DaysInMonth, DateFromTime, MonthFromTime.
  fold (InLeapYear t).
  assert (DayFromYear (YearFromTime t) = Day t - DayWithinYear t) as ->
    by (unfold DayWithinYear; lia).
  destruct (leapDays_range (YearFromTime t)) as [Hl|Hl];
    unfold InLeapYear in *; rewrite Hl in *;
    repeat match goal with
    | |- context [?a <? ?b] => destruct (Z.ltb_spec a b)
    end; simpl; lia.
Qed.

Lemma time_roundtrip (t : Z) :
  0 <= HourFromTime t <= 23 /\ 0 <= MinFromTime t <= 59 /\
  0 <= SecFromTime t <= 59 /\ 0 <= msFromTime t <= 999 /\
  MakeDate (Day t)
    (MakeTime (HourFromTime t) (MinFromTime t) (SecFromTime t) (msFromTime t)) = t.
Proof.
  unfold HourFromTime, MinFromTime, SecFromTime, msFromTime, MakeDate, MakeTime, Day,
    msPerDay, msPerHour, msPerMinute, msPerSecond.
  Z.div_mod_to_equations. lia.
Qed.

Lemma year_range (t : Z) :
  - maxTime <= t <= maxTime -> -271821 <= YearFromTime t <= 275760.
Proof.
  intros Ht. pose proof (YearFromTime_spec t) as H.
  unfold DayFromYear, Day, msPerDay, maxTime in *.
  Z.div_mod_to_equations. lia.
Qed.

Lemma digitChar_spec (d : Z) :
  0 <= d <= 9 -> isDigit (digitChar d) = true /\ digitValue (digitChar d) = d.
Proof.
  intros H.
  assert (d = 0 \/ d = 1 \/ d = 2 \/ d = 3 \/ d = 4 \/ d = 5 \/ d = 6 \/ d = 7
          \/ d = 8 \/ d = 9) as Hd by lia.
  repeat destruct Hd as [->|Hd]; try subst d; by vm_compute.
Qed.

Lemma digitsValue_snoc (ds : jsstring) (c : ascii) :
  digitsValue (ds ++ [c]) = 10 * digitsValue ds + digitValue c.
Proof. unfold digitsValue. by rewrite fold_left_app. Qed.

Lemma digitsOf_spec (fuel : nat) : forall n,
  0 <= n < 2 ^ (Z.of_nat fuel + 1) ->
  forallb isDigit (digitsOf fuel n) = true /\
  digitsValue (digitsOf fuel n) = n /\
  (1 <= length (digitsOf fuel n))%nat /\
  forall k, (1 <= k)%nat -> n < 10 ^ Z.of_nat k -> (length (digitsOf fuel n) <= k)%nat.
Proof.
  induction fuel as [|fuel IH]; intros n Hn.
  - simpl in *. assert (n mod 10 = n) as -> by (Z.div_mod_to_equations; lia).
    destruct (digitChar_spec n) as [H1 H2]; [lia|].
    rewrite H1. unfold digitsValue. simpl. rewrite H2. repeat split; try lia.
  - cbn [digitsOf]. destruct (Z.ltb_spec n 10) as [Hlt|Hge].
    + destruct (digitChar_spec n) as [H1 H2]; [lia|]. simpl.
      rewrite H1. unfold digitsValue. simpl. rewrite H2. repeat split; try lia.
    + assert (0 <= n / 10 < 2 ^ (Z.of_nat fuel + 1)) as Hq.
      { replace (Z.of_nat (S fuel) + 1) with (Z.succ (Z.of_nat fuel + 1)) in Hn by lia.
        rewrite Z.pow_succ_r in Hn by lia. Z.div_mod_to_equations. lia. }
      destruct (IH _ Hq) as (I1 & I2 & I3 & I4).
      destruct (digitChar_spec (n mod 10)) as [H1 H2]; [Z.div_mod_to_equations; lia|].
      rewrite forallb_app, I1, digitsValue_snoc, I2, H2, length_app. simpl. rewrite H1.
      repeat split; try lia.
      * Z.div_mod_to_equations. lia.
      * intros k Hk Hnk. destruct k as [|[|k]]; [lia| simpl in Hnk; lia|].
        specialize (I4 (S k) ltac:(lia)).
        replace (Z.of_nat (S (S k))) with (Z.succ (Z.of_nat (S k))) in Hnk by lia.
        rewrite Z.pow_succ_r in Hnk by lia.
        assert (n / 10 < 10 ^ Z.of_nat (S k)) by (Z.div_mod_to_equations; lia).
        specialize (I4 ltac:(done)). lia.
Qed.

Lemma decimal_spec (n : Z) :
  0 <= n ->
  forallb isDigit (decimal n) = true /\
  digitsValue (decimal n) = n /\
  (1 <= length (decimal n))%nat /\
  forall k, (1 <= k)%nat -> n < 10 ^ Z.of_nat k -> (length (decimal n) <= k)%nat.
Proof.
  intros Hn. unfold decimal. apply digitsOf_spec.
  rewrite Z2Nat.id by apply Z.log2_nonneg.
  destruct (decide (n = 0)) as [->|Hne]; [by vm_compute|].
  pose proof (Z.log2_spec n ltac:(lia)) as H.
  replace (Z.log2 n + 1) with (Z.succ (Z.log2 n)) by lia. lia.
Qed.

Lemma digitsValue_zeros (k : nat) (ds : jsstring) :
  digitsValue (replicate k "0"%char ++ ds) = digitsValue ds.
Proof.
  unfold digitsValue. rewrite fold_left_app.
  assert (fold_left (fun acc c => 10 * acc + digitValue c) (replicate k "0"%char) 0 = 0) as ->; [|done].
  induction k as [|k IH]; [done|]. simpl. exact IH.
Qed.

Lemma padStart_zeros (s : jsstring) (len : nat) :
  padStart s len (js "0") = replicate (len - length s) "0"%char ++ s.
Proof.
  unfold padStart. f_equal. generalize (len - length s)%nat. intros k.
  assert (concat (replicate k (js "0")) = replicate k "0"%char) as ->.
  { induction k as [|k IH]; [done|]. cbn [replicate concat]. by rewrite IH. }
  rewrite take_ge; [done|]. by rewrite length_replicate.
Qed.

Lemma pad_spec (k : nat) (n : Z) :
  (1 <= k)%nat -> 0 <= n < 10 ^ Z.of_nat k ->
  length (pad k n) = k /\ forallb isDigit (pad k n) = true /\ digitsValue (pad k n) = n.
Proof.
  intros Hk Hn. unfold pad, numToString.
  destruct (Z.ltb_spec n 0); [lia|].
  destruct (decimal_spec n) as (D1 & D2 & D3 & D4); [lia|].
  specialize (D4 k Hk ltac:(lia)).
  rewrite padStart_zeros, length_app, length_replicate, forallb_app, D1,
    digitsValue_zeros, D2.
  repeat split; [lia|]. rewrite andb_true_r.
  generalize (k - length (decimal n))%nat. intros j.
  induction j as [|j IH]; [done|]. simpl. exact IH.
Qed.

(** *** Deterministic matches *)

Lemma span_exact p (n : nat) (ds rest : jsstring) :
  length ds = n -> forallb p ds = true -> span p (Some n) (ds ++ rest) = n.
Proof.
  intros Hl Hp. pose proof (span_bound p n (ds ++ rest)).
  pose proof (span_prefix p (Some n) ds rest Hp) as H'.
  specialize (H' ltac:(intros h [= <-]; lia)). lia.
Qed.

Lemma downto_self (n : nat) : downto n n = [n].
Proof.
  destruct n as [|n]; [done|]. cbn [downto].
  rewrite Nat.ltb_irrefl. f_equal. destruct n as [|n]; [done|].
  cbn [downto]. by rewrite (proj2 (Nat.ltb_lt _ _)) by lia.
Qed.

Lemma downto_above (lo n : nat) : (n < lo)%nat -> downto lo n = [].
Proof. intros H. destruct n; cbn [downto]; by rewrite (proj2 (Nat.ltb_lt _ _)) by lia. Qed.

Lemma run_digits (n : nat) (bol : bool) (ds rest : jsstring) :
  length ds = n -> forallb isDigit ds = true ->
  run (digits n) bol (ds ++ rest) = [(ds, [], rest)].
Proof.
  intros Hl Hp. unfold digits. cbn [run].
  rewrite (span_exact _ _ _ _ Hl Hp), downto_self. cbn [map].
  subst n. by rewrite take_app_length, drop_app_length.
Qed.

Lemma run_class_none p lo hi bol (c : ascii) (s : jsstring) :
  p c = false -> (1 <= lo)%nat -> run (Class p lo hi) bol (c :: s) = [].
Proof.
  intros Hc Hlo. cbn [run].
  assert (span p hi (c :: s) = 0%nat) as ->.
  { destruct hi as [[|h]|]; simpl; by rewrite ?Hc. }
  by rewrite downto_above.
Qed.

Lemma run_bol_det (s : jsstring) : run Bol true s = [([], [], s)].
Proof. done. Qed.

Lemma run_eol_det (bol : bool) : run Eol bol [] = [([], [], [])].
Proof. done. Qed.

Lemma run_lit_det (c : ascii) (bol : bool) (s : jsstring) :
  run (Lit c) bol (c :: s) = [([c], [], s)].
Proof. simpl. by rewrite bool_decide_eq_true_2. Qed.

Lemma run_group_det r bol s c k s' :
  run r bol s = [(c, k, s')] -> run (Group r) bol s = [(c, Some c :: k, s')].
Proof. simpl. by intros ->. Qed.

Lemma run_seq_det r1 r2 bol s c1 k1 s1 c2 k2 s2 :
  run r1 bol s = [(c1, k1, s1)] ->
  run r2 (bol && isEmpty c1) s1 = [(c2, k2, s2)] ->
  run (Seq r1 r2) bol s = [(c1 ++ c2, k1 ++ k2, s2)].
Proof. intros H1 H2. cbn [run]. rewrite H1. cbn [flat_map]. by rewrite H2. Qed.

(** *** parseInt on what the patterns capture *)

Lemma digit_not_space (c : ascii) :
  isDigit c = true ->
  isWhiteSpace c = false /\ c <> "-"%char /\ c <> "+"%char /\ isSign c = false.
Proof.
  unfold isDigit, isWhiteSpace, isSign, between.
  intros [H1%Z.leb_le H2%Z.leb_le]%andb_prop.
  assert (c <> "-"%char) as Hm by (intros ->; change (48 <= 45) in H1; lia).
  assert (c <> "+"%char) as Hp by (intros ->; change (48 <= 43) in H1; lia).
  repeat split; try done.
  - repeat (apply orb_false_intro); try (apply Z.eqb_neq; lia).
    apply andb_false_iff. right. apply Z.leb_gt. lia.
  - by rewrite !bool_decide_eq_false_2.
Qed.

Lemma takeWhile_all (p : ascii -> bool) (ds : jsstring) :
  forallb p ds = true -> takeWhile p ds = ds.
Proof.
  intros H. unfold takeWhile.
  pose proof (span_prefix p None ds [] H ltac:(done)) as H1.
  rewrite app_nil_r in H1. by rewrite take_ge.
Qed.

Lemma parseInt_digits (ds : jsstring) :
  (1 <= length ds)%nat -> forallb isDigit ds = true ->
  parseInt (Some ds) = Some (digitsValue ds).
Proof.
  intros Hl Hp. destruct ds as [|c ds]; [simpl in Hl; lia|].
  pose proof Hp as Hp'. simpl in Hp'. apply andb_prop in Hp' as [Hc _].
  destruct (digit_not_space c Hc) as (Hs & Hm & Hpl & _).
  unfold parseInt. cbn [trimStart]. rewrite Hs.
  rewrite !bool_decide_eq_false_2 by done.
  rewrite (takeWhile_all _ _ Hp). by rewrite Z.mul_1_l.
Qed.

Lemma parseInt_signed (sgn : ascii) (ds : jsstring) :
  sgn = "+"%char \/ sgn = "-"%char ->
  (1 <= length ds)%nat -> forallb isDigit ds = true ->
  parseInt (Some (sgn :: ds)) =
    Some ((if bool_decide (sgn = "-"%char) then -1 else 1) * digitsValue ds).
Proof.
  intros Hsgn Hl Hp.
  assert (parseInt (Some (sgn :: ds)) =
          match takeWhile isDigit ds with
          | [] => None
          | x => Some ((if bool_decide (sgn = "-"%char) then -1 else 1)
                       * digitsValue x)
          end) as ->.
  { by destruct Hsgn as [-> | ->]. }
  rewrite (takeWhile_all _ _ Hp). destruct ds; [simpl in Hl; lia|done].
Qed.

(** *** The year *)

Lemma run_one p (bol : bool) (c : ascii) (s : jsstring) :
  p c = true -> run (One p) bol (c :: s) = [([c], [], s)].
Proof.
  intros H. unfold One. cbn [run].
  assert (span p (Some 1%nat) (c :: s) = 1%nat) as ->.
  { simpl. rewrite H. pose proof (span_bound p 0 s). lia. }
  done.
Qed.

Lemma run_seq_none r1 r2 bol s : run r1 bol s = [] -> run (Seq r1 r2) bol s = [].
Proof. intros H. cbn [run]. by rewrite H. Qed.

Lemma run_alt_l r1 r2 bol s c k s' :
  run r1 bol s = [(c, k, s')] -> run r2 bol s = [] ->
  run (Alt r1 r2) bol s = [(c, k ++ replicate (ngroups r2) None, s')].
Proof. intros H1 H2. cbn [run]. by rewrite H1, H2. Qed.

Lemma run_alt_r r1 r2 bol s c k s' :
  run r1 bol s = [] -> run r2 bol s = [(c, k, s')] ->
  run (Alt r1 r2) bol s = [(c, replicate (ngroups r1) None ++ k, s')].
Proof. intros H1 H2. cbn [run]. by rewrite H1, H2. Qed.

Lemma run_year (bol : bool) (y : Z) (rest : jsstring) :
  -999999 <= y <= 999999 ->
  run yearRe bol (yearString y ++ rest) = [(yearString y, [], rest)].
Proof.
  intros Hy. unfold yearString, yearRe.
  destruct ((0 <=? y) && (y <=? 9999)) eqn:E.
  - apply andb_prop in E as [H1%Z.leb_le H2%Z.leb_le].
    destruct (pad_spec 4 y) as (L & D & _); [lia|simpl; lia|].
    apply (run_alt_r (Seq (One isSign) (digits 6)) (digits 4) bol
             (pad 4 y ++ rest) (pad 4 y) [] rest); [|by apply run_digits].
    destruct (pad 4 y) as [|c ds]; [done|].
    simpl in D. apply andb_prop in D as [Dc _].
    destruct (digit_not_space c Dc) as (_ & _ & _ & Hsign).
    apply run_seq_none. by apply run_class_none.
  - destruct (pad_spec 6 (Z.abs y)) as (L & D & _); [lia|simpl; lia|].
    set (sgn := if y <? 0 then "-"%char else "+"%char).
    assert (isSign sgn = true /\ isDigit sgn = false) as [Hs Hd]
      by (subst sgn; by destruct (y <? 0)).
    apply (run_alt_l (Seq (One isSign) (digits 6)) (digits 4) bol
             ((sgn :: pad 6 (Z.abs y)) ++ rest) (sgn :: pad 6 (Z.abs y)) [] rest);
      [|apply run_class_none; [done|lia]].
    apply (run_seq_det (One isSign) (digits 6) bol
             ((sgn :: pad 6 (Z.abs y)) ++ rest) [sgn] []
             (pad 6 (Z.abs y) ++ rest) (pad 6 (Z.abs y)) [] rest);
      [by apply run_one|by apply run_digits].
Qed.

Lemma parseInt_year (y : Z) :
  -999999 <= y <= 999999 -> parseInt (Some (yearString y)) = Some y.
Proof.
  intros Hy. unfold yearString.
  destruct ((0 <=? y) && (y <=? 9999)) eqn:E.
  - apply andb_prop in E as [H1%Z.leb_le H2%Z.leb_le].
    destruct (pad_spec 4 y) as (L & D & V); [lia|simpl; lia|].
    rewrite parseInt_digits, V; [done|lia|done].
  - destruct (pad_spec 6 (Z.abs y)) as (L & D & V); [lia|simpl; lia|].
    assert (y < 0 \/ 9999 < y) as Hcase.
    { apply andb_false_iff in E as [E%Z.leb_gt|E%Z.leb_gt]; lia. }
    rewrite parseInt_signed; [|destruct (y <? 0); auto|lia|done]. rewrite V.
    destruct (Z.ltb_spec y 0); f_equal.
    + rewrite bool_decide_eq_true_2 by done. lia.
    + rewrite bool_decide_eq_false_2 by done. lia.
Qed.

Lemma yearString_not_minus_zero (y : Z) :
  -999999 <= y <= 999999 -> yearString y <> js "-000000".
Proof.
  intros Hy Heq. pose proof (parseInt_year y Hy) as H. rewrite Heq in H.
  vm_compute in H. injection H as <-. by vm_compute in Heq.
Qed.

(** *** The complete form is read back *)

Lemma isoRe_match (Y mo d h mi s ms : jsstring) :
  (forall bol rest, run yearRe bol (Y ++ rest) = [(Y, [], rest)]) ->
  length mo = 2%nat -> forallb isDigit mo = true ->
  length d = 2%nat -> forallb isDigit d = true ->
  length h = 2%nat -> forallb isDigit h = true ->
  length mi = 2%nat -> forallb isDigit mi = true ->
  length s = 2%nat -> forallb isDigit s = true ->
  length ms = 3%nat -> forallb isDigit ms = true ->
  exists whole,
    jsmatch (Y ++ "-"%char :: mo ++ "-"%char :: d ++ "T"%char :: h ++ ":"%char :: mi
             ++ ":"%char :: s ++ "."%char :: ms ++ ["Z"%char]) isoRe
    = Some [Some whole; Some Y; Some mo; Some d; Some h; Some mi; Some s; Some ms].
Proof.
  intros HY L1 D1 L2 D2 L3 D3 L4 D4 L5 D5 L6 D6.
  unfold isoRe. rewrite jsmatch_anchored. unfold matchAt.
  match goal with
  | |- context [run ?r true ?str] =>
      enough (exists c k, run r true str = [(c, k, [])] /\
                k = [Some Y; Some mo; Some d; Some h; Some mi; Some s; Some ms])
        as (c & k & -> & ->) by (simpl; eauto)
  end.
  eexists _, _. split.
  - repeat first
      [ apply run_bol_det | apply run_eol_det | apply run_lit_det
      | apply HY | apply run_digits; [done|done]
      | eapply run_group_det | eapply run_seq_det ].
  - reflexivity.
Qed.

Lemma toISOString_eq (t : Z) :
  toISOString t =
    yearString (YearFromTime t) ++ "-"%char :: pad 2 (MonthFromTime t + 1)
    ++ "-"%char :: pad 2 (DateFromTime t) ++ "T"%char :: pad 2 (HourFromTime t)
    ++ ":"%char :: pad 2 (MinFromTime t) ++ ":"%char :: pad 2 (SecFromTime t)
    ++ "."%char :: pad 3 (msFromTime t) ++ ["Z"%char].
Proof. reflexivity. Qed.

(** [Date.parse(x.toISOString())] is the time value of [x]. *)
Lemma parseISO_toISOString (t : Z) :
  - maxTime <= t <= maxTime -> parseISO (toISOString t) = Some t.
Proof.
  intros Ht.
  pose proof (year_range t Ht) as Hy.
  destruct (calendar_roundtrip t) as (Hmo & Hd & Hday).
  destruct (time_roundtrip t) as (Hh & Hmi & Hs & Hms & Htime).
  assert (DaysInMonth (YearFromTime t) (MonthFromTime t) <= 31) as Hdim.
  { unfold DaysInMonth.
    destruct (leapDays_range (YearFromTime t)) as [-> | ->];
      assert (MonthFromTime t = 0 \/ MonthFromTime t = 1 \/ MonthFromTime t = 2
              \/ MonthFromTime t = 3 \/ MonthFromTime t = 4 \/ MonthFromTime t = 5
              \/ MonthFromTime t = 6 \/ MonthFromTime t = 7 \/ MonthFromTime t = 8
              \/ MonthFromTime t = 9 \/ MonthFromTime t = 10 \/ MonthFromTime t = 11)
        as Hcases by lia;
      repeat destruct Hcases as [-> | Hcases]; try rewrite Hcases; simpl; lia. }
  destruct (pad_spec 2 (MonthFromTime t + 1)) as (L1 & D1 & V1); [lia|simpl; lia|].
  destruct (pad_spec 2 (DateFromTime t)) as (L2 & D2 & V2); [lia|simpl; lia|].
  destruct (pad_spec 2 (HourFromTime t)) as (L3 & D3 & V3); [lia|simpl; lia|].
  destruct (pad_spec 2 (MinFromTime t)) as (L4 & D4 & V4); [lia|simpl; lia|].
  destruct (pad_spec 2 (SecFromTime t)) as (L5 & D5 & V5); [lia|simpl; lia|].
  destruct (pad_spec 3 (msFromTime t)) as (L6 & D6 & V6); [lia|simpl; lia|].
  assert (-999999 <= YearFromTime t <= 999999) as Hy' by lia.
  destruct (isoRe_match (yearString (YearFromTime t)) _ _ _ _ _ _
              (fun bol rest => run_year bol (YearFromTime t) rest Hy')
              L1 D1 L2 D2 L3 D3 L4 D4 L5 D5 L6 D6) as [whole Hm].
  unfold parseISO. rewrite toISOString_eq, Hm.
  cbn [group lookup list_lookup mjoin option_join option_bind mbind].
  rewrite (parseInt_year (YearFromTime t)) by lia.
  rewrite !parseInt_digits by (done || lia).
  rewrite V1, V2, V3, V4, V5, V6. cbn [getOr0 default from_option]. unfold id.
  replace (MonthFromTime t + 1 - 1) with (MonthFromTime t) by lia.
  rewrite bool_decide_eq_false_2.
  2:{ intros [= H]. by apply (yearString_not_minus_zero (YearFromTime t) ltac:(lia)). }
  rewrite !(proj2 (Z.leb_le _ _)) by lia. cbn [andb negb].
  by rewrite Hday, Htime.
Qed.

Section DateIdempotence.

Variable otherFormats : jsstring -> number.

Lemma newDate_range (input : jsstring) (t : Z) :
  newDate otherFormats input = Some t -> - maxTime <= t <= maxTime.
Proof.
  unfold newDate, TimeClip. destruct (DateParse otherFormats input) as [x|]; [|done].
  destruct (Z.ltb_spec maxTime (Z.abs x)); [done|]. intros [= <-]. lia.
Qed.

Lemma newDate_toISOString (t : Z) :
  - maxTime <= t <= maxTime -> newDate otherFormats (toISOString t) = Some t.
Proof.
  intros Ht. unfold newDate, DateParse, TimeClip.
  rewrite (parseISO_toISOString t Ht).
  destruct (Z.ltb_spec maxTime (Z.abs t)); [lia|done].
Qed.

Lemma normalizeDateToISO_idempotent (input out : jsstring) :
  normalizeDateToISO otherFormats input = Ok out ->
  normalizeDateToISO otherFormats out = Ok out.
Proof.
  unfold normalizeDateToISO.
  destruct (newDate otherFormats input) as [t|] eqn:E; [|done].
  intros [= <-]. by rewrite (newDate_toISOString t (newDate_range _ _ E)).
Qed.

(** C7. Normalizing a normalized date or time changes nothing: whenever a
    normalizer accepts an input, it accepts its own output and returns it
    unchanged.  For dates this holds whatever the engine does with strings
    outside the complete ISO form. *)
Theorem normalizers_idempotent :
  (forall input out,
     normalizeDateToISO otherFormats input = Ok out ->
     normalizeDateToISO otherFormats out = Ok out) /\
  (forall input out,
     normalizeTimeTo24 input = Ok out -> normalizeTimeTo24 out = Ok out).
Proof.
  split; [exact normalizeDateToISO_idempotent|exact normalizeTimeTo24_idempotent].
Qed.

End DateIdempotence.

Lemma normalizers_idempotent_witness :
  normalizeDateToISO sampleLegacy (js "January 15, 2024 10:00 UTC")
    = Ok (js "2024-01-15T10:00:00.000Z") /\
  normalizeDateToISO sampleLegacy (js "2024-01-15T10:00:00.000Z")
    = Ok (js "2024-01-15T10:00:00.000Z") /\
  normalizeTimeTo24 (js "9:30 PM") = Ok (js "21:30") /\
  normalizeTimeTo24 (js "21:30") = Ok (js "21:30").
Proof.
  destruct (normalizers_idempotent sampleLegacy) as [Hdate Htime].
  split; [by vm_compute|]. split; [apply (Hdate (js "January 15, 2024 10:00 UTC")); by vm_compute|].
  split; [by vm_compute|]. apply (Htime (js "9:30 PM")). by vm_compute.
Defined.

(* ------------------------------------------------------------------ *)
(** ** One attempt for all callers *)

(** C9. With a URI configured and no attempt failing, under every schedule
    of calls, settlements and resumptions: the first call records its
    attempt in the in-flight slot in the very step that suspends it; at most
    one [mongoose.connect] is ever made, and exactly one once any call was
    made; every suspended call awaits that one attempt; every call made is
    suspended or has returned; every call that returned got the handle that
    attempt resolved to; and a suspended call, resumed after the attempt
    resolved, returns that handle. *)
Theorem one_attempt_for_all (env : option jsstring) (uri : jsstring) (tr : list event) :
  configuredUri env = Some uri ->
  forallb noReject tr = true ->
  let s := runEvents env tr initialSystem in
  (forall c,
     step env (Call c) initialSystem =
       {| sworld := {| cache := {| conn := None; promise := Some 0%nat |};
                       promises := [None]; connectLog := [uri] |};
          suspended := [(c, (0%nat, Own))]; returned := [] |}) /\
  (length (connectLog (sworld s)) <= 1)%nat /\
  (callers tr <> [] -> connectLog (sworld s) = [uri]) /\
  (forall c p site, (c, (p, site)) ∈ suspended s ->
     p = 0%nat /\ promise (cache (sworld s)) = Some 0%nat) /\
  (forall c, c ∈ callers tr -> c ∈ (suspended s).*1 \/ c ∈ (returned s).*1) /\
  (forall c r, (c, r) ∈ returned s ->
     exists m, r = Ok m /\ promises (sworld s) = [Some (Ok m)]) /\
  (forall c p site rest m,
     takeCaller c (suspended s) = Some ((p, site), rest) ->
     promises (sworld s) !! p = Some (Some (Ok m)) ->
     step env (Resume c) s =
       {| sworld := setConn m (sworld s); suspended := rest;
          returned := returned s ++ [(c, Ok m)] |}).
Proof.
  intros Hu Hq s.
  pose proof (Inv_reachable env tr) as I. fold s in I.
  pose proof (Quiet_reachable env uri tr Hu Hq) as Q. fold s in Q.
  pose proof (single_attempt uri tr s I Q) as Hone.
  split; [|split; [|split; [|split; [|split; [|split]]]]].
  - intros c. unfold step. change (sworld initialSystem) with initialWorld.
    by rewrite (connectToDatabase_fresh env initialWorld uri).
  - by rewrite (inv_log s I).
  - intros Hc. pose proof (quiet_started uri tr s Q Hc) as H1.
    pose proof (quiet_log uri tr s Q) as Hl. pose proof (inv_log s I) as Hlen.
    destruct (connectLog (sworld s)) as [|u [|]]; simpl in Hlen; try lia.
    apply Forall_cons in Hl as [<- _]. done.
  - intros c p site H. pose proof (inv_susp s I c p site H) as Hlt.
    assert (p = 0%nat) as -> by lia. split; [done|].
    destruct (decide (promise (cache (sworld s)) = Some 0%nat)) as [|Hne]; [done|].
    destruct (inv_old s I 0%nat Hlt Hne) as [e He].
    by destruct (quiet_promises uri tr s Q 0%nat e).
  - apply (quiet_callers uri tr s Q).
  - intros c r H. destruct (quiet_returned uri tr s Q c r H) as [m ->].
    exists m. split; [done|].
    destruct (inv_conn s I m (inv_ret s I c m H)) as (p & _ & Hp).
    pose proof (lookup_lt_Some _ _ _ Hp) as Hlt.
    destruct (promises (sworld s)) as [|x [|]]; simpl in *; try lia.
    assert (p = 0%nat) as -> by lia. simpl in Hp. congruence.
  - intros c p site rest m T Hp. unfold step. rewrite T, Hp. by destruct site.
Qed.

Lemma one_attempt_for_all_witness :
  let env := Some sampleUri in
  let s := runEvents env
             [Call 1; Call 2; Call 3; Settle 0 (Ok 7%N); Resume 2; Resume 3; Resume 1]%nat
             initialSystem in
  connectLog (sworld s) = [sampleUri] /\
  returned s = [(2%nat, Ok 7%N); (3%nat, Ok 7%N); (1%nat, Ok 7%N)] /\
  forall c r, (c, r) ∈ returned s -> r = Ok 7%N.
Proof.
  intros env s.
  destruct (one_attempt_for_all env sampleUri
              [Call 1; Call 2; Call 3; Settle 0 (Ok 7%N); Resume 2; Resume 3; Resume 1]%nat
              eq_refl eq_refl) as (_ & _ & Hlog & _ & _ & Hret & _).
  split; [by apply Hlog|]. split; [reflexivity|].
  intros c r H. destruct (Hret c r H) as (m & -> & Hm).
  vm_compute in Hm. congruence.
Defined.

(* ================================================================== *)
(** * Further properties *)

Lemma slugify_eq (title : jsstring) :
  slugify title =
    dropFinalDash (dropFirstDash (collapseRuns false (trim (toLowerCase title)))).
Proof.
  unfold slugify. rewrite replace_edge_dashes. unfold replaceAll at 1.
  by rewrite replace_runs by lia.
Qed.

Lemma notSlugChar_isSlugChar (c : ascii) : notSlugChar c = negb (isSlugChar c).
Proof. done. Qed.

Lemma isDash_not_slug (c : ascii) : isDash c = true -> isSlugChar c = false.
Proof. unfold isDash. by intros ->%bool_decide_eq_true. Qed.

Lemma collapseRuns_alphabet (b : bool) (s : jsstring) :
  forallb slugAlphabet (collapseRuns b s) = true.
Proof.
  revert b. induction s as [|c s IH]; intros b; [done|].
  cbn [collapseRuns]. rewrite notSlugChar_isSlugChar.
  destruct (isSlugChar c) eqn:E; simpl.
  - unfold slugAlphabet at 1. rewrite E. simpl. apply IH.
  - destruct b; [apply IH|]. simpl. apply IH.
Qed.

Lemma dropFirstDash_forallb p (s : jsstring) :
  forallb p s = true -> forallb p (dropFirstDash s) = true.
Proof.
  destruct s as [|x s]; [done|]. simpl. destruct (isDash x); [|done].
  by intros [_ ?]%andb_prop.
Qed.

Lemma dropFinalDash_forallb p (s : jsstring) :
  forallb p s = true -> forallb p (dropFinalDash s) = true.
Proof.
  induction s as [|x s IH]; [done|]. simpl. intros [Hx Hs]%andb_prop.
  destruct (isDash x && isEmpty s); [done|]. simpl. by rewrite Hx, IH.
Qed.

Lemma dropFinalDash_noDoubleDash (s : jsstring) :
  noDoubleDash s = true -> noDoubleDash (dropFinalDash s) = true.
Proof.
  induction s as [|x s IH]; [done|]. intros H. cbn [dropFinalDash].
  destruct (isDash x && isEmpty s) eqn:E; [done|].
  pose proof (noDoubleDash_tail _ _ H) as Hs. specialize (IH Hs).
  cbn [noDoubleDash]. rewrite IH, andb_true_r.
  destruct s as [|y s]; [done|]. cbn [dropFinalDash].
  destruct (isDash y && isEmpty s) eqn:E2; [done|].
  simpl in H. by apply andb_prop in H as [H _].
Qed.

Lemma dropFirstDash_head (s : jsstring) :
  noDoubleDash s = true -> forall x, head (dropFirstDash s) = Some x -> isDash x = false.
Proof.
  destruct s as [|a [|b s]]; simpl.
  - done.
  - destruct (isDash a) eqn:E; [done|]. by intros _ x [= <-].
  - intros [H _]%andb_prop. destruct (isDash a) eqn:E; simpl.
    + intros x [= <-]. by destruct (isDash b).
    + by intros x [= <-].
Qed.

Lemma dropFinalDash_head (s : jsstring) (x : ascii) :
  head (dropFinalDash s) = Some x -> head s = Some x.
Proof.
  destruct s as [|a s]; [done|]. simpl. by destruct (isDash a && isEmpty s).
Qed.

Lemma dropFinalDash_last (s : jsstring) :
  noDoubleDash s = true -> forall x, last (dropFinalDash s) = Some x -> isDash x = false.
Proof.
  destruct s as [|x s _] using rev_ind; [done|].
  intros H y. rewrite dropFinalDash_snoc. destruct (isDash x) eqn:Ex.
  - destruct s as [|z s _] using rev_ind; [done|].
    rewrite last_snoc. intros [= <-].
    rewrite <- app_assoc in H. simpl in H. apply noDoubleDash_end in H.
    by rewrite Ex, andb_true_r in H.
  - rewrite last_snoc. by intros [= <-].
Qed.

(** What the three replacements leave of any string: lowercase letters,
    digits and single dashes, with a letter or digit at either end. *)
Lemma replacements_shape (t : jsstring) :
  let s := dropFinalDash (dropFirstDash (collapseRuns false t)) in
  forallb slugAlphabet s = true /\
  noDoubleDash s = true /\
  (forall x, head s = Some x -> isSlugChar x = true) /\
  (forall x, last s = Some x -> isSlugChar x = true).
Proof.
  cbv zeta.
  destruct (collapseRuns_shape t) as (Hdd & _ & _).
  pose proof (collapseRuns_alphabet false t) as Ha.
  pose proof (dropFinalDash_forallb _ _ (dropFirstDash_forallb _ _ Ha)) as Hall.
  pose proof (noDoubleDash_dropFirst _ Hdd) as Hdd1.
  assert (forall x, x ∈ dropFinalDash (dropFirstDash (collapseRuns false t)) ->
            isDash x = false -> isSlugChar x = true) as Hslug.
  { intros x Hx Hd. rewrite forallb_forall in Hall.
    specialize (Hall x ltac:(by apply list_elem_of_In)).
    unfold slugAlphabet in Hall. rewrite Hd, orb_false_r in Hall. done. }
  repeat split.
  - exact Hall.
  - by apply dropFinalDash_noDoubleDash.
  - intros x Hx. apply Hslug.
    + destruct (dropFinalDash _) as [|a l]; [done|]. injection Hx as ->. by left.
    + apply dropFinalDash_head in Hx. by apply (dropFirstDash_head _ Hdd).
  - intros x Hx. apply Hslug.
    + apply last_Some in Hx as [l' ->]. apply elem_of_app. right. by left.
    + by apply (dropFinalDash_last _ Hdd1).
Qed.

(** X1. A slug is made of lowercase letters, digits and dashes only; it has
    no two dashes in a row, and it neither starts nor ends with a dash. *)
Theorem slugify_shape (title : jsstring) :
  forallb slugAlphabet (slugify title) = true /\
  noDoubleDash (slugify title) = true /\
  (forall x, head (slugify title) = Some x -> isSlugChar x = true) /\
  (forall x, last (slugify title) = Some x -> isSlugChar x = true).
Proof.
  rewrite slugify_eq. apply replacements_shape.
Qed.

(** *** The letters and digits are kept *)

Lemma space_not_slug (c : ascii) : isWhiteSpace c = true -> isSlugChar c = false.
Proof.
  unfold isWhiteSpace, isSlugChar, isLowerLetter, isDigit, between.
  intros H. apply orb_false_intro; apply andb_false_iff;
    repeat (apply orb_prop in H as [H|H]);
    try (apply andb_prop in H as [H1%Z.leb_le H2%Z.leb_le]);
    try (apply Z.eqb_eq in H);
    try (left; apply Z.leb_gt; lia); right; apply Z.leb_gt; lia.
Qed.

Lemma slugChars_trimStart (s : jsstring) : slugChars (trimStart s) = slugChars s.
Proof.
  induction s as [|c s IH]; [done|]. simpl.
  destruct (isWhiteSpace c) eqn:E; [|done].
  by rewrite (space_not_slug c E).
Qed.

Lemma slugChars_trim (s : jsstring) : slugChars (trim s) = slugChars s.
Proof.
  unfold trim, trimEnd, slugChars.
  rewrite List.filter_rev. fold (slugChars (trimStart (rev (trimStart s)))).
  rewrite slugChars_trimStart. unfold slugChars.
  rewrite List.filter_rev, rev_involutive. apply slugChars_trimStart.
Qed.

Lemma slugChars_collapseRuns (b : bool) (s : jsstring) :
  slugChars (collapseRuns b s) = slugChars s.
Proof.
  revert b. induction s as [|c s IH]; intros b; [done|].
  cbn [collapseRuns]. rewrite notSlugChar_isSlugChar. unfold slugChars in *.
  destruct (isSlugChar c) eqn:E; simpl; rewrite ?E.
  - by rewrite IH.
  - destruct b; simpl; apply IH.
Qed.

Lemma slugChars_dropFirstDash (s : jsstring) : slugChars (dropFirstDash s) = slugChars s.
Proof.
  destruct s as [|x s]; [done|]. simpl. destruct (isDash x) eqn:E; [|done].
  by rewrite (isDash_not_slug x E).
Qed.

Lemma slugChars_dropFinalDash (s : jsstring) : slugChars (dropFinalDash s) = slugChars s.
Proof.
  induction s as [|x s IH]; [done|]. simpl.
  destruct (isDash x && isEmpty s) eqn:E.
  - apply andb_prop in E as [Ex Es]. destruct s; [|done].
    simpl. by rewrite (isDash_not_slug x Ex).
  - unfold slugChars in *. simpl. by rewrite IH.
Qed.

Lemma slugChars_replacements (t : jsstring) :
  slugChars (dropFinalDash (dropFirstDash (collapseRuns false t))) = slugChars t.
Proof.
  by rewrite slugChars_dropFinalDash, slugChars_dropFirstDash,
    slugChars_collapseRuns.
Qed.

(** X2. The letters and digits of a slug are exactly those of the
    lowercased title, in the same order: only what lies between them is
    replaced. *)
Theorem slugify_keeps_letters_and_digits (title : jsstring) :
  slugChars (slugify title) = slugChars (toLowerCase title).
Proof.
  rewrite slugify_eq, slugChars_replacements. apply slugChars_trim.
Qed.

Lemma slugChars_nil (s : jsstring) :
  slugChars s = [] <-> forallb notSlugChar s = true.
Proof.
  induction s as [|c s IH]; [done|]. unfold slugChars in *. simpl.
  rewrite notSlugChar_isSlugChar. destruct (isSlugChar c); simpl; [done|exact IH].
Qed.

(** X3. The slug is empty exactly when the lowercased title holds no
    character of [a-z0-9]; a title of punctuation only gives the empty
    slug. *)
Theorem slugify_empty_iff (title : jsstring) :
  slugify title = [] <-> forallb notSlugChar (toLowerCase title) = true.
Proof.
  rewrite <- slugChars_nil, <- slugChars_trim,
    <- (slugChars_replacements (trim (toLowerCase title))).
  pose proof (replacements_shape (trim (toLowerCase title))) as (_ & _ & Hhead & _).
  rewrite <- slugify_eq in *. split.
  - by intros ->.
  - intros H.
    destruct (slugify title) as [|x s]; [done|].
    specialize (Hhead x eq_refl). unfold slugChars in H. simpl in H.
    by rewrite Hhead in H.
Qed.

(** *** A slug is its own slug *)

Lemma slug_lower (c : ascii) : slugAlphabet c = true -> toLowerChar c = c.
Proof.
  unfold slugAlphabet, isSlugChar, isDash, isLowerLetter, isDigit, toLowerChar, between.
  intros H.
  assert (code c = 45 \/ 48 <= code c <= 57 \/ 97 <= code c <= 122) as Hc.
  { repeat (apply orb_prop in H as [H|H]).
    - apply andb_prop in H as [H1%Z.leb_le H2%Z.leb_le]. lia.
    - apply andb_prop in H as [H1%Z.leb_le H2%Z.leb_le]. lia.
    - apply bool_decide_eq_true in H as ->. by left. }
  rewrite (proj2 (orb_false_iff _ _)); [done|]. split.
  - apply andb_false_iff.
    destruct (Z.leb_spec 65 (code c)); [right; apply Z.leb_gt; lia|by left].
  - apply andb_false_iff. left. apply andb_false_iff. left. apply Z.leb_gt. lia.
Qed.

Lemma slug_not_space (c : ascii) : slugAlphabet c = true -> isWhiteSpace c = false.
Proof.
  intros H. destruct (isWhiteSpace c) eqn:E; [|done].
  unfold slugAlphabet in H. rewrite (space_not_slug c E) in H. simpl in H.
  apply bool_decide_eq_true in H as ->. done.
Qed.

Lemma trimStart_id (s : jsstring) :
  (forall x, head s = Some x -> isWhiteSpace x = false) -> trimStart s = s.
Proof. destruct s as [|c s]; [done|]. intros H. simpl. by rewrite (H c). Qed.

Lemma head_rev_last (s : jsstring) : head (rev s) = last s.
Proof.
  destruct s as [|x s _] using rev_ind; [done|].
  by rewrite rev_app_distr, last_snoc.
Qed.

Lemma trim_id (s : jsstring) :
  (forall x, head s = Some x -> isWhiteSpace x = false) ->
  (forall x, last s = Some x -> isWhiteSpace x = false) ->
  trim s = s.
Proof.
  intros Hh Hl. unfold trim, trimEnd. rewrite (trimStart_id s Hh).
  rewrite trimStart_id; [apply rev_involutive|].
  intros x Hx. apply Hl. by rewrite <- head_rev_last.
Qed.

Lemma collapseRuns_id (s : jsstring) :
  forallb slugAlphabet s = true -> noDoubleDash s = true ->
  collapseRuns false s = s.
Proof.
  induction s as [|c s IH]; [done|]. intros Ha Hd.
  pose proof Ha as Ha'. simpl in Ha'. apply andb_prop in Ha' as [Hc Hs].
  pose proof (noDoubleDash_tail _ _ Hd) as Hd'.
  cbn [collapseRuns]. rewrite notSlugChar_isSlugChar.
  destruct (isSlugChar c) eqn:E; simpl; [by rewrite IH|].
  unfold slugAlphabet in Hc. rewrite E in Hc. simpl in Hc.
  pose proof Hc as Hc'. apply bool_decide_eq_true in Hc' as Heq. rewrite <- Heq.
  f_equal. destruct s as [|d s]; [done|].
  cbn [noDoubleDash] in Hd. rewrite Hc in Hd. cbn [andb] in Hd.
  apply andb_prop in Hd as [Hdd _]. apply negb_true_iff in Hdd.
  simpl in Hs. apply andb_prop in Hs as [Hda Hs'].
  unfold slugAlphabet in Hda. rewrite Hdd, orb_false_r in Hda.
  rewrite <- (IH ltac:(simpl; unfold slugAlphabet at 1; by rewrite Hda, Hs') Hd') at 2.
  cbn [collapseRuns]. rewrite notSlugChar_isSlugChar, Hda. done.
Qed.

Lemma dropFirstDash_id (s : jsstring) :
  (forall x, head s = Some x -> isDash x = false) -> dropFirstDash s = s.
Proof. destruct s as [|c s]; [done|]. intros H. simpl. by rewrite (H c). Qed.

Lemma dropFinalDash_id (s : jsstring) :
  (forall x, last s = Some x -> isDash x = false) -> dropFinalDash s = s.
Proof.
  destruct s as [|x s _] using rev_ind; [done|]. intros H.
  rewrite dropFinalDash_snoc, (H x); [done|]. by rewrite last_snoc.
Qed.

(** X4. A slug is its own slug. *)
Theorem slugify_idempotent (title : jsstring) :
  slugify (slugify title) = slugify title.
Proof.
  pose proof (replacements_shape (trim (toLowerCase title)))
    as (Ha & Hd & Hhead & Hlast).
  rewrite <- slugify_eq in Ha, Hd, Hhead, Hlast.
  set (u := slugify title) in *.
  assert (toLowerCase u = u) as Hlow.
  { unfold toLowerCase. clear -Ha. induction u as [|c u IH]; [done|].
    simpl in *. apply andb_prop in Ha as [Hc Hu]. by rewrite (slug_lower c Hc), IH. }
  assert (forall x, isSlugChar x = true -> isWhiteSpace x = false /\ isDash x = false)
    as Hsl.
  { intros x Hx. split.
    - apply slug_not_space. unfold slugAlphabet. by rewrite Hx.
    - destruct (isDash x) eqn:E; [|done]. apply isDash_not_slug in E. congruence. }
  rewrite slugify_eq, Hlow, trim_id, (collapseRuns_id u Ha Hd),
    dropFirstDash_id, dropFinalDash_id; try done.
  - intros x Hx. by apply Hsl, Hlast.
  - intros x Hx. by apply Hsl, Hhead.
  - intros x Hx. by apply Hsl, Hhead.
  - intros x Hx. by apply Hsl, Hlast.
Qed.

Lemma accepts_Ok input h m : accepts input h m = true -> normalizeTimeTo24 input = Ok (hhmm h m).
Proof.
  unfold accepts. destruct (normalizeTimeTo24 input); [|done].
  by intros ->%bool_decide_eq_true.
Qed.

Lemma table24_holds :
  forallb (fun h => forallb (fun m =>
    forallb (fun w => accepts w h m) (writings24 h m)) (seqZ 0 60)) (seqZ 0 24) = true.
Proof. vm_compute. reflexivity. Qed.

Lemma table12_holds :
  forallb (fun h => forallb (fun m =>
    forallb (fun w => accepts w (h mod 12) m) (writings12 h m "am" "AM")
    && forallb (fun w => accepts w (h mod 12 + 12) m) (writings12 h m "pm" "PM"))
    (seqZ 0 60)) (seqZ 1 12) = true.
Proof. vm_compute. reflexivity. Qed.

(** X5. Every 24-hour time, its hour written with or without a leading
    zero, is accepted and comes out zero-padded. *)
Theorem twenty_four_hour_times (h m : Z) (w : jsstring) :
  0 <= h < 24 -> 0 <= m < 60 -> w ∈ writings24 h m ->
  normalizeTimeTo24 w = Ok (hhmm h m).
Proof.
  intros Hh Hm Hw. pose proof table24_holds as H.
  rewrite forallb_forall in H. specialize (H h).
  rewrite <- list_elem_of_In, elem_of_seqZ in H. specialize (H ltac:(lia)).
  rewrite forallb_forall in H. specialize (H m).
  rewrite <- list_elem_of_In, elem_of_seqZ in H. specialize (H ltac:(lia)).
  rewrite forallb_forall in H. apply accepts_Ok, H. by apply list_elem_of_In.
Qed.

(** X6. Every 12-hour time with hour 1..12 is converted as the clock reads:
    12 am is hour 0, 1..11 am stay, 12 pm stays, 1..11 pm gain twelve hours.
    The minutes may be left out when zero, the period may follow directly or
    after one or two spaces, in either case. *)
Theorem twelve_hour_times (h m : Z) (w : jsstring) :
  1 <= h <= 12 -> 0 <= m < 60 ->
  (w ∈ writings12 h m "am" "AM" -> normalizeTimeTo24 w = Ok (hhmm (h mod 12) m)) /\
  (w ∈ writings12 h m "pm" "PM" -> normalizeTimeTo24 w = Ok (hhmm (h mod 12 + 12) m)).
Proof.
  intros Hh Hm. pose proof table12_holds as H.
  rewrite forallb_forall in H. specialize (H h).
  rewrite <- list_elem_of_In, elem_of_seqZ in H. specialize (H ltac:(lia)).
  rewrite forallb_forall in H. specialize (H m).
  rewrite <- list_elem_of_In, elem_of_seqZ in H. specialize (H ltac:(lia)).
  apply andb_prop in H as [H1 H2]. rewrite forallb_forall in H1, H2.
  split; intros Hw; apply accepts_Ok; [apply H1|apply H2]; by apply list_elem_of_In.
Qed.

Lemma twenty_four_hour_times_witness :
  normalizeTimeTo24 (js "7:05") = Ok (js "07:05").
Proof.
  apply (twenty_four_hour_times 7 5 (js "7:05")); [lia|lia|].
  apply list_elem_of_In. right. left. reflexivity.
Defined.

Lemma twelve_hour_times_witness :
  normalizeTimeTo24 (js "12:15 AM") = Ok (js "00:15") /\
  normalizeTimeTo24 (js "7pm") = Ok (js "19:00").
Proof.
  split.
  - apply (twelve_hour_times 12 15 (js "12:15 AM")); [lia|lia|].
    apply list_elem_of_In. vm_compute. tauto.
  - apply (twelve_hour_times 7 0 (js "7pm")); [lia|lia|].
    apply list_elem_of_In. vm_compute. tauto.
Defined.

(** X7. Whatever time the normalizer returns is five characters: two digits
    below 24, a colon, two digits below 60. *)
Theorem normalized_time_shape (input out : jsstring) :
  normalizeTimeTo24 input = Ok out ->
  exists hh mm,
    out = hh ++ ":"%char :: mm /\
    length hh = 2%nat /\ length mm = 2%nat /\
    forallb isDigit hh = true /\ forallb isDigit mm = true /\
    0 <= digitsValue hh < 24 /\ 0 <= digitsValue mm < 60.
Proof.
  intros (h & m & Hh & Hm & ->)%normalizeTimeTo24_canonical.
  destruct (pad_spec 2 h) as (L1 & D1 & V1); [lia|simpl; lia|].
  destruct (pad_spec 2 m) as (L2 & D2 & V2); [lia|simpl; lia|].
  exists (pad 2 h), (pad 2 m). rewrite V1, V2. repeat split; (done || lia).
Qed.

Lemma normalized_time_shape_witness :
  exists hh mm,
    js "21:30" = hh ++ ":"%char :: mm /\
    length hh = 2%nat /\ length mm = 2%nat /\
    forallb isDigit hh = true /\ forallb isDigit mm = true /\
    0 <= digitsValue hh < 24 /\ 0 <= digitsValue mm < 60.
Proof. apply (normalized_time_shape (js "9:30 pm")). by vm_compute. Defined.

(** *** What is rejected *)

Lemma code_ascii_of_N (n : N) : (n < 256)%N -> code (ascii_of_N n) = Z.of_N n.
Proof. intros H. unfold code. by rewrite N_ascii_embedding. Qed.

Lemma code_range (c : ascii) : 0 <= code c < 256.
Proof. unfold code. pose proof (N_ascii_bounded c). lia. Qed.

Lemma isDigit_toLowerChar (c : ascii) : isDigit (toLowerChar c) = isDigit c.
Proof.
  unfold toLowerChar.
  destruct (between 65 90 c || between 192 222 c && negb (code c =? 215)) eqn:E;
    [|done].
  assert (65 <= code c <= 90 \/ 192 <= code c <= 222) as Hc.
  { unfold between in E. apply orb_prop in E as [E|E].
    - apply andb_prop in E as [H1%Z.leb_le H2%Z.leb_le]. lia.
    - apply andb_prop in E as [E _]. apply andb_prop in E as [H1%Z.leb_le H2%Z.leb_le]. lia. }
  assert (code (ascii_of_N (Z.to_N (code c + 32))) = code c + 32) as Hcode.
  { pose proof (code_range c). rewrite code_ascii_of_N; lia. }
  unfold isDigit, between. rewrite Hcode.
  assert ((code c + 32 <=? 57) = false) as -> by (apply Z.leb_gt; lia).
  assert ((code c <=? 57) = false) as -> by (apply Z.leb_gt; lia).
  by rewrite !andb_false_r.
Qed.

Lemma run_needs_digit (hi : option nat) (r : regex) (s : jsstring) :
  (forall x, head s = Some x -> isDigit x = false) ->
  run (Seq Bol (Seq (Group (Class isDigit 1 hi)) r)) true s = [].
Proof.
  intros H.
  destruct (run _ true s) as [|[[c k] rest] l] eqn:E; [done|]. exfalso.
  assert (In (c, k, rest) (run (Seq Bol (Seq (Group (Class isDigit 1 hi)) r)) true s))
    as Hin by (rewrite E; by left).
  apply run_spec in Hin as [-> M].
  repeat match goal with
  | H : Matches (Seq _ _) _ _ _ _ |- _ => inversion H; clear H; subst
  | H : Matches (Group _) _ _ _ _ |- _ => inversion H; clear H; subst
  | H : Matches (Class _ _ _) _ _ _ _ |- _ => inversion H; clear H; subst
  | H : Matches Bol _ _ _ _ |- _ => inversion H; clear H; subst
  end.
  match goal with
  | Hd : forallb isDigit ?d = true, Hl : (1 <= length ?d)%nat |- _ =>
      destruct d as [|x d]; [simpl in Hl; lia|];
      simpl in Hd; apply andb_prop in Hd as [Hx _];
      specialize (H x eq_refl); congruence
  end.
Qed.

Lemma jsmatch_needs_digit (hi : option nat) (r : regex) (s : jsstring) :
  (forall x, head s = Some x -> isDigit x = false) ->
  jsmatch s (Seq Bol (Seq (Group (Class isDigit 1 hi)) r)) = None.
Proof.
  intros H. rewrite jsmatch_anchored. unfold matchAt.
  by rewrite (run_needs_digit hi r s H).
Qed.

(** X8. An input that, once trimmed, is empty or does not start with a digit
    is rejected, and the error carries the input as it was given. *)
Theorem time_needs_leading_digit (input : jsstring) :
  (forall x, head (trim input) = Some x -> isDigit x = false) ->
  normalizeTimeTo24 input = Throw (InvalidTimeFormat input).
Proof.
  intros H. unfold normalizeTimeTo24. cbv zeta.
  assert (forall x, head (toLowerCase (trim input)) = Some x -> isDigit x = false) as H'.
  { destruct (trim input) as [|c s]; [done|]. simpl. intros x [= <-].
    rewrite isDigit_toLowerChar. by apply H. }
  unfold hhmmRe, ampmRe. by rewrite !jsmatch_needs_digit.
Qed.

Lemma time_needs_leading_digit_witness :
  normalizeTimeTo24 (js "  noon ") = Throw (InvalidTimeFormat (js "  noon ")) /\
  normalizeTimeTo24 (js "   ") = Throw (InvalidTimeFormat (js "   ")).
Proof.
  split; apply time_needs_leading_digit; vm_compute; [by intros x [= <-]|done].
Defined.

Lemma yearString_length (y : Z) :
  -999999 <= y <= 999999 ->
  length (yearString y) = if (0 <=? y) && (y <=? 9999) then 4%nat else 7%nat.
Proof.
  intros Hy. unfold yearString. destruct ((0 <=? y) && (y <=? 9999)) eqn:E.
  - apply andb_prop in E as [H1%Z.leb_le H2%Z.leb_le].
    by destruct (pad_spec 4 y) as (L & _); [lia|simpl; lia|].
  - destruct (pad_spec 6 (Z.abs y)) as (L & _); [lia|simpl; lia|].
    simpl. by rewrite L.
Qed.

Lemma yearString_head (y : Z) :
  -999999 <= y <= 999999 ->
  exists c s, yearString y = c :: s /\ (isDigit c = true \/ isSign c = true).
Proof.
  intros Hy. unfold yearString. destruct ((0 <=? y) && (y <=? 9999)) eqn:E.
  - apply andb_prop in E as [H1%Z.leb_le H2%Z.leb_le].
    destruct (pad_spec 4 y) as (L & D & _); [lia|simpl; lia|].
    destruct (pad 4 y) as [|c s]; [done|]. exists c, s. split; [done|]. left.
    simpl in D. by apply andb_prop in D as [? _].
  - eexists _, _. split; [done|]. right. by destruct (y <? 0).
Qed.

Lemma toISOString_shape (t : Z) :
  - maxTime <= t <= maxTime ->
  length (toISOString t) =
    (if (0 <=? YearFromTime t) && (YearFromTime t <=? 9999) then 24%nat else 27%nat) /\
  last (toISOString t) = Some "Z"%char /\
  (forall x, head (toISOString t) = Some x -> isDigit x = true \/ isSign x = true).
Proof.
  intros Ht. pose proof (year_range t Ht) as Hy.
  destruct (calendar_roundtrip t) as (Hmo & Hd & _).
  destruct (time_roundtrip t) as (Hh & Hmi & Hs & Hms & _).
  assert (DaysInMonth (YearFromTime t) (MonthFromTime t) <= 31) as Hdim.
  { unfold DaysInMonth.
    destruct (leapDays_range (YearFromTime t)) as [-> | ->];
      assert (MonthFromTime t = 0 \/ MonthFromTime t = 1 \/ MonthFromTime t = 2
              \/ MonthFromTime t = 3 \/ MonthFromTime t = 4 \/ MonthFromTime t = 5
              \/ MonthFromTime t = 6 \/ MonthFromTime t = 7 \/ MonthFromTime t = 8
              \/ MonthFromTime t = 9 \/ MonthFromTime t = 10 \/ MonthFromTime t = 11)
        as Hcases by lia;
      repeat destruct Hcases as [-> | Hcases]; try rewrite Hcases; simpl; lia. }
  destruct (pad_spec 2 (MonthFromTime t + 1)) as (L1 & _); [lia|simpl; lia|].
  destruct (pad_spec 2 (DateFromTime t)) as (L2 & _); [lia|simpl; lia|].
  destruct (pad_spec 2 (HourFromTime t)) as (L3 & _); [lia|simpl; lia|].
  destruct (pad_spec 2 (MinFromTime t)) as (L4 & _); [lia|simpl; lia|].
  destruct (pad_spec 2 (SecFromTime t)) as (L5 & _); [lia|simpl; lia|].
  destruct (pad_spec 3 (msFromTime t)) as (L6 & _); [lia|simpl; lia|].
  rewrite toISOString_eq. split; [|split].
  - repeat (rewrite length_app || rewrite length_cons).
    rewrite yearString_length, L1, L2, L3, L4, L5, L6 by lia.
    by destruct ((0 <=? YearFromTime t) && (YearFromTime t <=? 9999)).
  - rewrite !app_comm_cons, !app_assoc. apply last_snoc.
  - destruct (yearString_head (YearFromTime t)) as (c & s & -> & Hc); [lia|].
    by intros x [= <-].
Qed.

(** X9. A normalized date is the ISO form of the instant the input was read
    as: 24 characters for the years 0..9999 and 27 otherwise, ending in
    [Z]. *)
Theorem date_output_shape (otherFormats : jsstring -> number) (input out : jsstring) :
  normalizeDateToISO otherFormats input = Ok out ->
  exists t,
    newDate otherFormats input = Some t /\ out = toISOString t /\
    length out =
      (if (0 <=? YearFromTime t) && (YearFromTime t <=? 9999) then 24%nat else 27%nat) /\
    last out = Some "Z"%char.
Proof.
  unfold normalizeDateToISO.
  destruct (newDate otherFormats input) as [t|] eqn:E; [|done]. intros [= <-].
  destruct (toISOString_shape t (newDate_range _ _ _ E)) as (Hl & Hz & _).
  by exists t.
Qed.

Lemma date_output_shape_witness :
  exists t,
    newDate sampleLegacy (js "January 15, 2024 10:00 UTC") = Some t /\
    js "2024-01-15T10:00:00.000Z" = toISOString t /\
    length (js "2024-01-15T10:00:00.000Z") =
      (if (0 <=? YearFromTime t) && (YearFromTime t <=? 9999) then 24%nat else 27%nat) /\
    last (js "2024-01-15T10:00:00.000Z") = Some "Z"%char.
Proof.
  apply (date_output_shape sampleLegacy (js "January 15, 2024 10:00 UTC")).
  by vm_compute.
Defined.

(** X10. Normalizing a date loses nothing: the output is read back as the
    instant of the input, so two inputs with the same output denote the same
    instant. *)
Theorem date_output_same_instant (otherFormats : jsstring -> number) :
  (forall input out,
     normalizeDateToISO otherFormats input = Ok out ->
     newDate otherFormats out = newDate otherFormats input) /\
  (forall a b out,
     normalizeDateToISO otherFormats a = Ok out ->
     normalizeDateToISO otherFormats b = Ok out ->
     newDate otherFormats a = newDate otherFormats b).
Proof.
  assert (forall input out,
            normalizeDateToISO otherFormats input = Ok out ->
            newDate otherFormats out = newDate otherFormats input) as H.
  { intros input out. unfold normalizeDateToISO.
    destruct (newDate otherFormats input) as [t|] eqn:E; [|done]. intros [= <-].
    apply newDate_toISOString. by apply (newDate_range otherFormats input). }
  split; [exact H|]. intros a b out Ha Hb.
  by rewrite <- (H a out Ha), <- (H b out Hb).
Qed.

Lemma date_output_same_instant_witness :
  newDate sampleLegacy (js "2024-01-15T10:00:00.000Z")
  = newDate sampleLegacy (js "January 15, 2024 10:00 UTC").
Proof.
  destruct (date_output_same_instant sampleLegacy) as [H _].
  apply H. by vm_compute.
Defined.

Lemma prop_insert_ne (this : object) (name name' : string) (v : value) :
  name <> name' -> prop (<[name := v]> this) name' = prop this name'.
Proof. intros H. rewrite prop_insert. by case_decide. Qed.

Lemma prop_insert_eq (this : object) (name : string) (v : value) :
  prop (<[name := v]> this) name = v.
Proof. rewrite prop_insert. by case_decide. Qed.

Lemma prop_slugStep (isModified : string -> bool) (this : object) (t : jsstring)
    (name : string) :
  name <> "slug"%string -> prop (slugStep isModified this t) name = prop this name.
Proof.
  intros H. unfold slugStep. destruct (_ || _); [|done]. by rewrite prop_insert_ne.
Qed.

Lemma find_blank_none (this : object) :
  forallb (fun f => negb (blank (prop this f))) requiredStringFields = true ->
  find (fun f => blank (prop this f)) requiredStringFields = None.
Proof.
  intros H. apply find_none. intros y Hy. rewrite forallb_forall in H.
  specialize (H y ltac:(by apply list_elem_of_In)). by apply negb_true_iff.
Qed.

Lemma checksPass_strings (this : object) :
  checksPass this = true ->
  exists t d tm,
    prop this "title" = VStr t /\ prop this "date" = VStr d /\
    prop this "time" = VStr tm.
Proof.
  unfold checksPass. intros [[H _]%andb_prop _]%andb_prop.
  rewrite forallb_forall in H.
  destruct (not_blank_string (prop this "title")) as (t & Ht & _).
  { apply negb_true_iff, H. simpl. tauto. }
  destruct (not_blank_string (prop this "date")) as (d & Hd & _).
  { apply negb_true_iff, H. simpl. tauto. }
  destruct (not_blank_string (prop this "time")) as (tm & Htm & _).
  { apply negb_true_iff, H. simpl. tauto. }
  by exists t, d, tm.
Qed.

Section HookClosedForm.

Variable otherFormats : jsstring -> number.
Variable isModified : string -> bool.

Lemma eventPreSave_failed_checks (this : object) :
  checksPass this = false ->
  exists e, eventPreSave otherFormats isModified this = (this, Throw e).
Proof.
  unfold checksPass. rewrite eventPreSave_eq. intros H.
  destruct (find _ requiredStringFields) as [f|] eqn:F; [by eexists|].
  destruct (noItems (prop this "agenda")); [by eexists|].
  destruct (noItems (prop this "tags")); [by eexists|].
  exfalso. rewrite !andb_true_r in H.
  assert (forallb (fun f => negb (blank (prop this f))) requiredStringFields = true); [|congruence].
  apply forallb_forall. intros y Hy. apply negb_true_iff.
  by apply (List.find_none _ _ F).
Qed.

(** The hook once the checks have passed: the slug step, then the date, then
    the time, each assignment made before the next statement can throw. *)
Lemma eventPreSave_closed (this : object) (t d tm : jsstring) :
  checksPass this = true ->
  prop this "title" = VStr t -> prop this "date" = VStr d ->
  prop this "time" = VStr tm ->
  eventPreSave otherFormats isModified this =
    match normalizeDateToISO otherFormats d with
    | Throw e => (slugStep isModified this t, Throw e)
    | Ok iso =>
        match normalizeTimeTo24 tm with
        | Throw e => (<["date"%string := VStr iso]> (slugStep isModified this t), Throw e)
        | Ok hm =>
            (<["time"%string := VStr hm]>
               (<["date"%string := VStr iso]> (slugStep isModified this t)), Ok tt)
        end
    end.
Proof.
  intros Hc Ht Hd Htm. pose proof Hc as Hc'. unfold checksPass in Hc'.
  apply andb_prop in Hc' as [[Hf Ha%negb_true_iff]%andb_prop Hg%negb_true_iff].
  rewrite eventPreSave_eq, (find_blank_none this Hf), Ha, Hg.
  unfold eventNormalize, slugStep, mbind, hook_bind, bind, getProp.
  destruct (isModified "title" || negb (toBoolean (prop this "slug"))).
  - rewrite Ht. unfold asString, ret, lift, setProp.
    rewrite prop_insert_ne by done. rewrite Hd.
    destruct (normalizeDateToISO otherFormats d) as [iso|e]; [|done].
    rewrite !prop_insert_ne by done. rewrite Htm.
    by destruct (normalizeTimeTo24 tm).
  - unfold asString, ret, lift, setProp. rewrite Hd.
    destruct (normalizeDateToISO otherFormats d) as [iso|e]; [|done].
    rewrite !prop_insert_ne by done. rewrite Htm.
    by destruct (normalizeTimeTo24 tm).
Qed.

End HookClosedForm.

Lemma normalizeDateToISO_Throw otherFormats d e :
  normalizeDateToISO otherFormats d = Throw e -> e = InvalidDateFormat d.
Proof. unfold normalizeDateToISO. destruct (newDate otherFormats d); by intros [= <-]. Qed.

Lemma normalizeTimeTo24_Throw tm e :
  normalizeTimeTo24 tm = Throw e -> e = InvalidTimeFormat tm.
Proof.
  unfold normalizeTimeTo24. cbv zeta.
  repeat match goal with
  | |- match ?d with _ => _ end = _ -> _ => destruct d; try done
  end.
  by intros [= <-].
Qed.

Lemma digit_or_sign_not_space (c : ascii) :
  isDigit c = true \/ isSign c = true -> isWhiteSpace c = false.
Proof.
  intros [H|H]; [by apply digit_not_space|].
  unfold isSign in H. apply orb_prop in H as [H|H];
    by apply bool_decide_eq_true in H as ->.
Qed.

Lemma blank_iso (t : Z) :
  - maxTime <= t <= maxTime -> blank (VStr (toISOString t)) = false.
Proof.
  intros Ht. destruct (toISOString_shape t Ht) as (Hl & Hz & Hh).
  simpl. rewrite trim_id.
  - apply Nat.eqb_neq. rewrite Hl. by destruct (_ && _).
  - intros x Hx. by apply digit_or_sign_not_space, Hh.
  - intros x Hx. rewrite Hz in Hx. by injection Hx as <-.
Qed.

Lemma blank_hhmm (h m : Z) :
  0 <= h < 24 -> 0 <= m < 60 -> blank (VStr (hhmm h m)) = false.
Proof.
  intros Hh Hm.
  destruct (pad_spec 2 h) as (L1 & D1 & _); [lia|simpl; lia|].
  destruct (pad_spec 2 m) as (L2 & D2 & _); [lia|simpl; lia|].
  change (hhmm h m) with (pad 2 h ++ ":"%char :: pad 2 m).
  simpl. rewrite trim_id.
  - apply Nat.eqb_neq. rewrite length_app. simpl. lia.
  - destruct (pad 2 h) as [|c s]; [done|]. simpl. intros x [= <-].
    simpl in D1. apply andb_prop in D1 as [Hc _]. by apply digit_not_space.
  - destruct (pad 2 m) as [|c s _] using rev_ind; [done|].
    rewrite app_comm_cons, app_assoc, last_snoc. intros x [= <-].
    rewrite forallb_app in D2. apply andb_prop in D2 as [_ Hc]. simpl in Hc.
    rewrite andb_true_r in Hc. by apply digit_not_space.
Qed.

Section HookProperties.

Variable otherFormats : jsstring -> number.
Variable isModified : string -> bool.

Lemma eventPreSave_Ok_inv (this this' : object) :
  eventPreSave otherFormats isModified this = (this', Ok tt) ->
  checksPass this = true /\
  exists t d tm iso hm,
    prop this "title" = VStr t /\ prop this "date" = VStr d /\
    prop this "time" = VStr tm /\
    normalizeDateToISO otherFormats d = Ok iso /\
    normalizeTimeTo24 tm = Ok hm /\
    this' = <["time"%string := VStr hm]>
              (<["date"%string := VStr iso]> (slugStep isModified this t)).
Proof.
  intros H. destruct (checksPass this) eqn:C.
  2:{ destruct (eventPreSave_failed_checks otherFormats isModified this C) as [e He].
      congruence. }
  split; [done|].
  destruct (checksPass_strings this C) as (t & d & tm & Ht & Hd & Htm).
  rewrite (eventPreSave_closed otherFormats isModified this t d tm C Ht Hd Htm) in H.
  destruct (normalizeDateToISO otherFormats d) as [iso|e] eqn:Ed; [|done].
  destruct (normalizeTimeTo24 tm) as [hm|e] eqn:Et; [|done].
  injection H as <-. by exists t, d, tm, iso, hm.
Qed.

(** X11. Whether it succeeds or fails, the Event hook leaves every property
    other than slug, date and time exactly as it was, present or absent. *)
Theorem event_hook_frame (this : object) (name : string) :
  name <> "slug"%string -> name <> "date"%string -> name <> "time"%string ->
  (eventPreSave otherFormats isModified this).1 !! name = this !! name.
Proof.
  intros Hs Hd Ht. destruct (checksPass this) eqn:C.
  - destruct (checksPass_strings this C) as (t & d & tm & Ht' & Hd' & Htm').
    rewrite (eventPreSave_closed otherFormats isModified this t d tm C Ht' Hd' Htm').
    assert (slugStep isModified this t !! name = this !! name) as Hslug.
    { unfold slugStep. destruct (_ || _); [|done]. by rewrite lookup_insert_ne. }
    destruct (normalizeDateToISO otherFormats d) as [iso|e]; [|done].
    destruct (normalizeTimeTo24 tm) as [hm|e]; simpl;
      by rewrite ?lookup_insert_ne.
  - by destruct (eventPreSave_failed_checks otherFormats isModified this C) as [e ->].
Qed.

(** X12. The assignments are made as the hook goes: when the date does not
    parse, the hook fails with the date error after the slug step has run;
    when the date parses and the time does not, it fails with the time error
    with the slug step done and the date already rewritten. *)
Theorem event_hook_partial_update (this : object) (t d tm : jsstring) :
  checksPass this = true ->
  prop this "title" = VStr t -> prop this "date" = VStr d ->
  prop this "time" = VStr tm ->
  (forall e, normalizeDateToISO otherFormats d = Throw e ->
     eventPreSave otherFormats isModified this =
       (slugStep isModified this t, Throw (InvalidDateFormat d))) /\
  (forall iso e, normalizeDateToISO otherFormats d = Ok iso ->
     normalizeTimeTo24 tm = Throw e ->
     eventPreSave otherFormats isModified this =
       (<["date"%string := VStr iso]> (slugStep isModified this t),
        Throw (InvalidTimeFormat tm))).
Proof.
  intros C Ht Hd Htm.
  rewrite (eventPreSave_closed otherFormats isModified this t d tm C Ht Hd Htm).
  split.
  - intros e He. rewrite He. by rewrite (normalizeDateToISO_Throw _ _ _ He).
  - intros iso e Hi He. rewrite Hi, He. by rewrite (normalizeTimeTo24_Throw _ _ He).
Qed.

(** X13. The Event hook succeeds exactly when the checks pass and both the
    date and the time normalize; the document then is the original after the
    slug step, with date and time replaced by their normal forms. *)
Theorem event_hook_success (this this' : object) :
  eventPreSave otherFormats isModified this = (this', Ok tt) <->
  checksPass this = true /\
  exists t d tm iso hm,
    prop this "title" = VStr t /\ prop this "date" = VStr d /\
    prop this "time" = VStr tm /\
    normalizeDateToISO otherFormats d = Ok iso /\
    normalizeTimeTo24 tm = Ok hm /\
    this' = <["time"%string := VStr hm]>
              (<["date"%string := VStr iso]> (slugStep isModified this t)).
Proof.
  split; [apply eventPreSave_Ok_inv|].
  intros (C & t & d & tm & iso & hm & Ht & Hd & Htm & Ed & Et & ->).
  rewrite (eventPreSave_closed otherFormats isModified this t d tm C Ht Hd Htm).
  by rewrite Ed, Et.
Qed.

End HookProperties.

Lemma slugStep_settled (isModified : string -> bool) (this : object) (t : jsstring)
    (this' : object) :
  this' !! "slug"%string = slugStep isModified this t !! "slug"%string ->
  prop this' "slug" = prop (slugStep isModified this t) "slug" ->
  slugStep (fun _ => false) this' t = this'.
Proof.
  intros Hl Hp. unfold slugStep at 1. rewrite Hp. cbn [orb].
  unfold slugStep in *.
  destruct (isModified "title" || negb (toBoolean (prop this "slug"))) eqn:C.
  - rewrite prop_insert_eq. rewrite lookup_insert_eq in Hl.
    destruct (negb (toBoolean (VStr (slugify t)))); [by apply insert_id|done].
  - apply orb_false_iff in C as [_ C]. by rewrite C.
Qed.

(** X14. Saving again changes nothing: on the document a successful hook
    produced, the hook with no modified path succeeds and returns that same
    document. *)
Theorem event_hook_idempotent (otherFormats : jsstring -> number)
    (isModified : string -> bool) (this this' : object) :
  eventPreSave otherFormats isModified this = (this', Ok tt) ->
  eventPreSave otherFormats (fun _ => false) this' = (this', Ok tt).
Proof.
  intros (C & t & d & tm & iso & hm & Ht & Hd & Htm & Ed & Et & Heq)%eventPreSave_Ok_inv.
  set (this1 := slugStep isModified this t) in *.
  assert (forall f, f <> "slug"%string -> f <> "date"%string -> f <> "time"%string ->
            prop this' f = prop this f) as Hother.
  { intros f H1 H2 H3. subst this'. rewrite !prop_insert_ne by done.
    by apply prop_slugStep. }
  assert (prop this' "date" = VStr iso) as Hd'.
  { subst this'. rewrite prop_insert_ne by done. apply prop_insert_eq. }
  assert (prop this' "time" = VStr hm) as Htm'.
  { subst this'. apply prop_insert_eq. }
  assert (blank (VStr iso) = false) as Biso.
  { unfold normalizeDateToISO in Ed.
    destruct (newDate otherFormats d) as [t0|] eqn:E; [|done]. injection Ed as <-.
    apply blank_iso. by apply (newDate_range otherFormats d). }
  assert (blank (VStr hm) = false) as Bhm.
  { apply normalizeTimeTo24_canonical in Et as (h & m & Hh & Hm & ->).
    by apply blank_hhmm. }
  assert (checksPass this' = true) as C'.
  { unfold checksPass in *.
    apply andb_prop in C as [[Hf Ha]%andb_prop Hg].
    rewrite (Hother "agenda"%string), (Hother "tags"%string), Ha, Hg by done.
    rewrite !andb_true_r. rewrite forallb_forall in Hf. apply forallb_forall.
    intros f Hin. specialize (Hf f Hin). simpl in Hin.
    repeat destruct Hin as [<-|Hin]; try done;
      rewrite ?Hd', ?Htm', ?Biso, ?Bhm; try done;
      by rewrite Hother. }
  rewrite (eventPreSave_closed otherFormats (fun _ => false) this' t iso hm C');
    [| by rewrite Hother | done | done].
  rewrite (normalizeDateToISO_idempotent otherFormats d iso Ed),
    (normalizeTimeTo24_idempotent tm hm Et).
  rewrite (slugStep_settled isModified this t this').
  - f_equal. rewrite (insert_id this' "date"%string), insert_id; try done.
    + subst this'. apply lookup_insert_eq.
    + subst this'. rewrite lookup_insert_ne by done. apply lookup_insert_eq.
  - subst this'. by rewrite !lookup_insert_ne.
  - subst this'. by rewrite !prop_insert_ne.
Qed.

Lemma event_hook_idempotent_witness :
  let r := eventPreSave noOtherFormats (fun _ => true) sampleEvent in
  r.2 = Ok tt /\ eventPreSave noOtherFormats (fun _ => false) r.1 = (r.1, Ok tt).
Proof.
  intros r. assert (r.2 = Ok tt) as H by (vm_compute; reflexivity).
  split; [exact H|].
  apply (event_hook_idempotent noOtherFormats (fun _ => true) sampleEvent).
  rewrite <- H. apply surjective_pairing.
Defined.

Lemma event_hook_frame_witness :
  (eventPreSave noOtherFormats (fun _ => true) sampleEvent).1 !! "venue"%string
  = sampleEvent !! "venue"%string.
Proof. by apply (event_hook_frame noOtherFormats (fun _ => true) sampleEvent "venue"). Defined.

Lemma event_hook_partial_update_witness :
  eventPreSave noOtherFormats (fun _ => true) undatedEvent =
    (slugStep (fun _ => true) undatedEvent (js "Hello, World!"),
     Throw (InvalidDateFormat (js "not-a-date"))).
Proof.
  assert (checksPass undatedEvent = true) as C by (vm_compute; reflexivity).
  assert (prop undatedEvent "title" = VStr (js "Hello, World!")) as Ht
    by (vm_compute; reflexivity).
  assert (prop undatedEvent "date" = VStr (js "not-a-date")) as Hd
    by (vm_compute; reflexivity).
  assert (prop undatedEvent "time" = VStr (js "9:30 PM")) as Htm
    by (vm_compute; reflexivity).
  destruct (event_hook_partial_update noOtherFormats (fun _ => true) undatedEvent
              (js "Hello, World!") (js "not-a-date") (js "9:30 PM") C Ht Hd Htm)
    as [H _].
  exact (H (InvalidDateFormat (js "not-a-date")) eq_refl).
Defined.

Lemma plain_facts (s : jsstring) :
  plain s -> countAt s = 0%nat /\ forallb (fun c => negb (isWhiteSpace c)) s = true.
Proof.
  unfold plain, countAt. induction s as [|c s IH]; [done|]. simpl.
  intros [Hc Hs]%andb_prop. destruct (IH Hs) as [I1 I2].
  unfold emailChar in Hc. apply negb_true_iff, orb_false_iff in Hc as [Hw Ha].
  rewrite Ha, Hw. simpl. by rewrite I2.
Qed.

Lemma countAt_app (s1 s2 : jsstring) : countAt (s1 ++ s2) = (countAt s1 + countAt s2)%nat.
Proof. unfold countAt. by rewrite List.filter_app, length_app. Qed.

(** X15. An accepted email holds exactly one [@], no white space, and at
    least five characters. *)
Theorem accepted_email_shape (email : jsstring) :
  isValidEmail email = true ->
  countAt email = 1%nat /\
  forallb (fun c => negb (isWhiteSpace c)) email = true /\
  (5 <= length email)%nat.
Proof.
  intros (l & dom & -> & Hl & Pl & Pd & d1 & d2 & -> & H1 & H2)%isValidEmail_spec.
  destruct (plain_facts l Pl) as [C1 W1].
  destruct (plain_facts _ Pd) as [C2 W2].
  repeat split.
  - change (l ++ "@"%char :: d1 ++ "."%char :: d2)
      with (l ++ ["@"%char] ++ (d1 ++ "."%char :: d2)).
    by rewrite countAt_app, countAt_app, C1, C2.
  - rewrite forallb_app, W1. simpl. exact W2.
  - apply length_pos_nonempty in Hl, H1, H2.
    rewrite length_app. simpl. rewrite length_app. simpl. lia.
Qed.

Lemma accepted_email_shape_witness :
  countAt (js "a@b.com") = 1%nat /\
  forallb (fun c => negb (isWhiteSpace c)) (js "a@b.com") = true /\
  (5 <= length (js "a@b.com"))%nat.
Proof. apply accepted_email_shape. by vm_compute. Defined.


Lemma step_keeps_handle (env : option jsstring) (e : event) (s : system) (m : Mongoose) :
  Inv s -> conn (cache (sworld s)) = Some m ->
  conn (cache (sworld (step env e s))) = Some m.
Proof.
  intros I Hm. destruct e as [c|p r|c]; unfold step.
  - unfold connectToDatabase. destruct (configuredUri env); [|done].
    by rewrite Hm.
  - simpl. unfold settle. by destruct (promises (sworld s) !! p) as [[?|]|].
  - destruct (takeCaller c (suspended s)) as [[[p site] rest]|] eqn:T; [|done].
    destruct (promises (sworld s) !! p) as [[[m'|e]|]|] eqn:Hp; try done.
    + assert (connectToDatabase_resume site (Ok m') (sworld s)
              = (setConn m' (sworld s), Ok m')) as -> by (by destruct site).
      simpl. destruct (inv_conn s I m Hm) as (q & Hq & Hl).
      apply takeCaller_split in T as (l1 & l2 & Hs & _).
      assert (p < length (promises (sworld s)))%nat as Hlt by (by eapply lookup_lt_Some).
      destruct (decide (q = p)) as [->|Hne]; [congruence|].
      destruct (inv_old s I p Hlt) as [e He]; congruence.
    + by destruct site.
Qed.

(** X17. Once a handle is cached it stays: whatever happens afterwards the
    live-handle slot holds the same handle, and every later call returns it at
    once, leaving the cache and the connect log untouched. *)
Theorem live_handle_is_stable (env : option jsstring) (uri : jsstring)
    (tr tr' : list event) (m : Mongoose) :
  configuredUri env = Some uri ->
  conn (cache (sworld (runEvents env tr initialSystem))) = Some m ->
  let s := runEvents env (tr ++ tr') initialSystem in
  conn (cache (sworld s)) = Some m /\
  forall c,
    step env (Call c) s =
      {| sworld := sworld s; suspended := suspended s;
         returned := returned s ++ [(c, Ok m)] |}.
Proof.
  intros Hu Hm s.
  assert (conn (cache (sworld s)) = Some m) as Hs.
  { subst s. induction tr' as [|e tr' IH] using rev_ind; [by rewrite app_nil_r|].
    rewrite app_assoc, runEvents_snoc. apply step_keeps_handle; [|done].
    apply Inv_reachable. }
  split; [done|]. intros c. unfold step.
  by rewrite (connectToDatabase_live env (sworld s) uri m Hu Hs).
Qed.

Lemma live_handle_is_stable_witness :
  let env := Some sampleUri in
  let s := runEvents env
             ([Call 1; Settle 0 (Ok 7%N); Resume 1] ++ [Call 2; Settle 0 (Ok 9%N); Call 3])%nat
             initialSystem in
  conn (cache (sworld s)) = Some 7%N.
Proof.
  intros env s.
  by apply (live_handle_is_stable env sampleUri
              [Call 1; Settle 0 (Ok 7%N); Resume 1]%nat
              [Call 2; Settle 0 (Ok 9%N); Call 3]%nat 7%N eq_refl eq_refl).
Defined.

Lemma at_most_one_open (l : list (option (result Mongoose))) (p : nat) :
  (forall q x, l !! q = Some x -> q <> p -> notRejected x = false) ->
  (length (List.filter notRejected l) <= 1)%nat.
Proof.
  revert p. induction l as [|a l IH]; intros p H; [simpl; lia|].
  destruct p as [|p].
  - assert (List.filter notRejected l = []) as Hl.
    { clear IH. induction l as [|b l IHl] in H |- *; [done|]. simpl.
      rewrite (H 1%nat b) by done. apply IHl. intros [|q] x Hq Hne; [done|].
      by apply (H (S (S q)) x). }
    simpl. rewrite Hl. destruct (notRejected a); simpl; lia.
  - simpl. rewrite (H 0%nat a) by done. apply (IH p).
    intros q x Hq Hne. apply (H (S q) x); [done|lia].
Qed.

Lemma filter_split_length {A} (f : A -> bool) (l : list A) :
  length l = (length (List.filter f l) + length (List.filter (fun x => negb (f x)) l))%nat.
Proof. induction l as [|a l IH]; [done|]. simpl. destruct (f a); simpl; lia. Qed.

(** X18. In every reachable state at most one promise is pending or
    fulfilled, all the others having been rejected: a new connect is made only
    after the previous one failed, so the connects number at most the
    failures plus one. *)
Theorem one_attempt_at_a_time (env : option jsstring) (tr : list event) :
  let s := runEvents env tr initialSystem in
  (length (List.filter notRejected (promises (sworld s))) <= 1)%nat /\
  (length (connectLog (sworld s))
   <= S (length (List.filter isRejected (promises (sworld s)))))%nat.
Proof.
  intros s. pose proof (Inv_reachable env tr) as I. fold s in I.
  assert (length (List.filter notRejected (promises (sworld s))) <= 1)%nat as H.
  { apply (at_most_one_open _
             (default (length (promises (sworld s))) (promise (cache (sworld s))))).
    intros q x Hq Hne.
    destruct (inv_old s I q) as [e He].
    - by eapply lookup_lt_Some.
    - intros Hslot. rewrite Hslot in Hne. by apply Hne.
    - rewrite Hq in He. by injection He as ->. }
  split; [done|]. rewrite (inv_log s I).
  rewrite (filter_split_length notRejected (promises (sworld s))).
  unfold isRejected. lia.
Qed.

(** X19. With no usable URI nothing ever happens to the cache: under every
    schedule the world stays as it started, no call is suspended, and every
    call made has failed with the configuration error. *)
Theorem without_uri_nothing_connects (env : option jsstring) (tr : list event) :
  configuredUri env = None ->
  let s := runEvents env tr initialSystem in
  sworld s = initialWorld /\ suspended s = [] /\
  returned s = map (fun c => (c, Throw MissingMongoUri)) (callers tr).
Proof.
  intros Hu. induction tr as [|e tr IH] using rev_ind; [done|].
  rewrite runEvents_snoc, callers_snoc. cbv zeta in *.
  destruct IH as (Hw & Hs & Hr).
  destruct e as [c|p r|c]; unfold step.
  - rewrite (connectToDatabase_unconfigured env _ Hu). simpl.
    by rewrite Hw, Hs, Hr, map_app.
  - simpl. rewrite Hw, Hs, Hr, app_nil_r. by destruct p.
  - rewrite Hs. simpl. by rewrite app_nil_r.
Qed.

Lemma without_uri_nothing_connects_witness :
  let s := runEvents (Some (js "  ")) [Call 1; Call 2; Resume 1]%nat initialSystem in
  sworld s = initialWorld /\ suspended s = [] /\
  returned s = [(1%nat, Throw MissingMongoUri); (2%nat, Throw MissingMongoUri)].
Proof.
  by apply (without_uri_nothing_connects (Some (js "  ")) [Call 1; Call 2; Resume 1]%nat).
Defined.
